(** * The restricted-invocation callback registry of SWE

    A verification development for [swe::static_event] (static_event.hpp)
    and [swe::concurrent_static_event] (concurrent_static_event.hpp).

    The two class templates are embedded as state transformers over a
    model of [std::vector<callback>]; the callbacks they store are run by a
    small interpreter, so that callbacks which throw, which are null, or
    which call back into the registry are all inside the model. *)

From stdpp Require Import base list.
From Stdlib Require Import ZArith.

(** ** Callback handles

    The class's [callback] type is a pointer to a function taking [Args...]
    and returning nothing.  It is either
    null or the address of a function; two handles are equal exactly when
    they point to the same function. *)

Inductive callback : Type :=
  | nullptr
  | fnptr (f : nat).

#[global] Instance callback_eq_dec : EqDecision callback.
Proof. solve_decision. Defined.

(** How many times the handle [cb] occurs in a sequence. *)
Definition occurrences (cb : callback) (l : list callback) : nat :=
  length (filter (λ y, y = cb) l).

(** ** [std::vector] and [std::remove] *)

Module Vector.
Section vector.
Context {T : Type} `{EqDecision T}.

(** The elements, front to back, and the number of operations performed
    so far that invalidate iterators into the vector ([push_back] always
    invalidates [end()]; [erase] invalidates everything from the erased
    position on, [end()] included).  An iterator obtained at epoch [g] is
    valid as long as the epoch is still [g]. *)
Record vector : Type := Build { data : list T; epoch : nat }.

Definition empty : vector := Build [] 0.

Definition size (v : vector) : nat := length (data v).

Definition push_back (x : T) (v : vector) : vector :=
  Build (data v ++ [x]) (S (epoch v)).

(** [v.erase(first, last)], iterators given as offsets from [begin()]. *)
Definition erase (first last : nat) (v : vector) : vector :=
  Build (take first (data v) ++ drop last (data v)) (S (epoch v)).

(** [v.clear()]: no element is left and every iterator is invalidated. *)
Definition clear (v : vector) : vector := Build [] (S (epoch v)).

(** [std::find(first, last, x)] on the whole range: the offset of the
    first element equal to [x], or [last]. *)
Fixpoint find (l : list T) (x : T) : nat :=
  match l with
  | [] => 0
  | y :: l' => if decide (y = x) then 0 else S (find l' x)
  end.

(** The shifting loop of [std::remove]:
    [for (i = first; ++i != last;) if (!( *i == x)) *first++ = std::move( *i);]
    entered with [i] already advanced; [n] is [last - i].  Moving a
    function pointer copies it. *)
Fixpoint shift (n i first : nat) (x : T) (l : list T) : list T * nat :=
  match n with
  | 0 => (l, first)
  | S n' =>
      match l !! i with
      | Some y =>
          if decide (y = x) then shift n' (S i) first x l
          else shift n' (S i) (S first) x (<[first := y]> l)
      | None => (l, first)
      end
  end.

(** [std::remove(v.begin(), v.end(), x)]: the elements are assigned in
    place, no iterator is invalidated, and the new logical end is
    returned. *)
Definition remove (x : T) (v : vector) : vector * nat :=
  let first := find (data v) x in
  if decide (first = size v) then (v, first)
  else
    let '(l, it) := shift (size v - S first) (S first) first x (data v) in
    (Build l (epoch v), it).

(** The elements other than [x], in order. *)
Definition keep (x : T) (l : list T) : list T := filter (λ y, y ≠ x) l.

End vector.
Arguments vector T : clear implicits.
End Vector.

(** ** Program states, outcomes and callback code *)

(** How a call ends: it returns, it leaves by an exception, the program has
    undefined behaviour (a call through a null pointer, the use of an
    invalidated iterator), or the calling thread blocks for ever on a
    [std::mutex] it already owns. *)
Inductive status {exn : Type} : Type :=
  | Normal
  | Thrown (e : exn)
  | Undefined
  | Deadlock.
Arguments status exn : clear implicits.

Section Callbacks.
Context {Args W exn : Type}.

(** What the body of a subscribed function may do: assign to the
    program's other variables (of type [W]), use the public interface of
    the event it is subscribed to, or throw.  [operator()] is private and
    a subscriber is not the [Caller], so a body has no nested
    invocation. *)
Inductive action : Type :=
  | Update (f : W → W)
  | Sub (cb : callback)      (* event += cb *)
  | Unsub (cb : callback)    (* event -= cb *)
  | Throw (e : exn).

Definition reenters (act : action) : bool :=
  match act with Sub _ | Unsub _ => true | _ => false end.

Definition throws (act : action) : bool :=
  match act with Throw _ => true | _ => false end.

(** The event object of type [E], the rest of the program's variables,
    and the calls made through the event so far, each with its
    arguments. *)
Record machine {E : Type} : Type :=
  Machine { event : E; globals : W; calls : list (callback * Args) }.
Arguments machine E : clear implicits.

Definition result (E : Type) : Type := status exn * machine E.

Definition set_event {E} (e : E) (m : machine E) : machine E :=
  Machine E e (globals m) (calls m).

Definition set_globals {E} (w : W) (m : machine E) : machine E :=
  Machine E (event m) w (calls m).

Definition record_call {E} (cb : callback) (a : Args) (m : machine E) : machine E :=
  Machine E (event m) (globals m) (calls m ++ [(cb, a)]).

(** The calls [l] made with arguments [a], as they appear in [calls]. *)
Definition with_args (a : Args) (l : list callback) : list (callback * Args) :=
  (λ cb, (cb, a)) <$> l.

(** A body that leaves the event alone, and one that moreover does not
    throw. *)
Definition quiet (acts : list action) : bool :=
  forallb (λ act, negb (reenters act)) acts.

Definition calm (acts : list action) : bool :=
  forallb (λ act, negb (reenters act) && negb (throws act)) acts.

(** What a quiet body does to the globals, and how it ends. *)
Fixpoint effect (acts : list action) (w : W) : status exn * W :=
  match acts with
  | [] => (Normal, w)
  | Update f :: rest => effect rest (f w)
  | Throw e :: _ => (Thrown e, w)
  | _ :: rest => effect rest w
  end.

Definition map_event {E1 E2} (φ : E1 → E2) (m : machine E1) : machine E2 :=
  Machine E2 (φ (event m)) (globals m) (calls m).

Section loop.
Context {E : Type}.
(** The event's vector and its two public operators. *)
Variable vec : E → Vector.vector callback.
Variables subscribe unsubscribe : callback → machine E → result E.
(** [code f a w]: what the function at address [f] does when called
    with arguments [a] while the globals are [w]. *)
Variable code : nat → Args → W → list action.

Fixpoint run_actions (acts : list action) (m : machine E) : result E :=
  match acts with
  | [] => (Normal, m)
  | Update f :: rest => run_actions rest (set_globals (f (globals m)) m)
  | Sub cb :: rest =>
      match subscribe cb m with
      | (Normal, m') => run_actions rest m'
      | r => r
      end
  | Unsub cb :: rest =>
      match unsubscribe cb m with
      | (Normal, m') => run_actions rest m'
      | r => r
      end
  | Throw e :: _ => (Thrown e, m)
  end.

(** [cb(args...)] *)
Definition call (cb : callback) (a : Args) (m : machine E) : result E :=
  match cb with
  | nullptr => (Undefined, record_call cb a m)
  | fnptr f => run_actions (code f a (globals m)) (record_call cb a m)
  end.

(** [for (auto& cb : _callbacks) cb(args...);] over the range
    [begin(), end()) taken when the loop is entered, at epoch [gen];
    [rest] is what lies between the loop's iterator and [end()].
    Advancing and comparing the iterators after a call is undefined
    once the vector has invalidated them. *)
Fixpoint range_for (rest : list callback) (gen : nat) (a : Args)
    (m : machine E) : result E :=
  match rest with
  | [] => (Normal, m)
  | cb :: rest' =>
      match call cb a m with
      | (Normal, m') =>
          if decide (Vector.epoch (vec (event m')) = gen)
          then range_for rest' gen a m'
          else (Undefined, m')
      | r => r
      end
  end.

(** An operation that touches neither the globals nor the record of
    calls, and that changes the event only by invalidating the
    vector's iterators. *)
Definition preserves (f : machine E → result E) : Prop :=
  ∀ m st m', f m = (st, m') →
    calls m' = calls m ∧ globals m' = globals m
    ∧ Vector.epoch (vec (event m)) ≤ Vector.epoch (vec (event m'))
    ∧ (Vector.epoch (vec (event m')) = Vector.epoch (vec (event m)) →
       event m' = event m).

(** The function [cb] points to never uses the event. *)
Definition non_reentrant (cb : callback) : Prop :=
  match cb with
  | nullptr => True
  | fnptr f => ∀ a w, quiet (code f a w) = true
  end.

(** [cb] points to a function that only assigns to globals and
    returns. *)
Definition well_behaved (cb : callback) : Prop :=
  match cb with
  | nullptr => False
  | fnptr f => ∀ a w, calm (code f a w) = true
  end.
End loop.
End Callbacks.
Arguments machine : clear implicits.
Arguments Machine {Args W E} event globals calls.
Arguments action : clear implicits.
Arguments result : clear implicits.

(** The operations a client performs on an event, the last one only from
    inside the [Caller]. *)
Inductive op {Args : Type} : Type :=
  | Subscribe (cb : callback)
  | Unsubscribe (cb : callback)
  | Invoke (a : Args).
Arguments op Args : clear implicits.

(** ** [swe::static_event] *)

Module StaticEvent.
Section static_event.
Context {Args W exn : Type}.
Variable code : nat → Args → W → list (action W exn).

Record static_event : Type :=
  Build { _callbacks : Vector.vector callback }.

(** [static_event() = default] *)
Definition empty : static_event := Build Vector.empty.

Abbreviation machine := (@machine Args W static_event).
Abbreviation result := (result Args W exn static_event).

(** [operator+=] *)
Definition subscribe (cb : callback) (m : machine) : result :=
  (Normal, set_event (Build (Vector.push_back cb (_callbacks (event m)))) m).

(** [operator-=] *)
Definition unsubscribe (cb : callback) (m : machine) : result :=
  let '(v, it) := Vector.remove cb (_callbacks (event m)) in
  if decide (it ≠ Vector.size v)
  then (Normal, set_event (Build (Vector.erase it (Vector.size v) v)) m)
  else (Normal, set_event (Build v) m).

(** [cb(args...)] for a handle held by this event. *)
Definition call (cb : callback) (a : Args) (m : machine) : result :=
  call subscribe unsubscribe code cb a m.

(** The loop of [operator()] over the handles [l], entered in [m]. *)
Definition for_each (l : list callback) (a : Args) (m : machine) : result :=
  range_for _callbacks subscribe unsubscribe code
    l (Vector.epoch (_callbacks (event m))) a m.

(** [operator()] *)
Definition invoke (a : Args) (m : machine) : result :=
  for_each (Vector.data (_callbacks (event m))) a m.

Definition step (o : op Args) (m : machine) : result :=
  match o with
  | Subscribe cb => subscribe cb m
  | Unsubscribe cb => unsubscribe cb m
  | Invoke a => invoke a m
  end.

(** A client program: the operations one after another; an exception
    that leaves an operation ends it. *)
Fixpoint run (ops : list (op Args)) (m : machine) : result :=
  match ops with
  | [] => (Normal, m)
  | o :: ops' =>
      match step o m with
      | (Normal, m') => run ops' m'
      | r => r
      end
  end.

(** The sequence of handles held by the event. *)
Definition handles (m : machine) : list callback :=
  Vector.data (_callbacks (event m)).
End static_event.
End StaticEvent.

(** ** [swe::concurrent_static_event] *)

Module ConcurrentStaticEvent.
Section concurrent_static_event.
Context {Args W exn : Type}.
Variable code : nat → Args → W → list (action W exn).

(** [_mutex] is [true] while the mutex is owned. *)
Record concurrent_static_event : Type :=
  Build { _mutex : bool; _callbacks : Vector.vector callback }.

Definition empty : concurrent_static_event := Build false Vector.empty.

Abbreviation machine := (@machine Args W concurrent_static_event).
Abbreviation result := (result Args W exn concurrent_static_event).

Definition set_mutex (b : bool) (m : machine) : machine :=
  set_event (Build b (_callbacks (event m))) m.

Definition set_callbacks (v : Vector.vector callback) (m : machine) : machine :=
  set_event (Build (_mutex (event m)) v) m.

(** [std::lock_guard<std::mutex> lock(_mutex);] followed by the rest of
    the function body.  Locking a mutex the thread already owns never
    returns (what implementations do; the C++ standard leaves it
    undefined); the guard's destructor unlocks when the body returns and
    when an exception unwinds through it. *)
Definition lock_guard (rest : machine → result) (m : machine) : result :=
  if _mutex (event m) then (Deadlock, m)
  else
    match rest (set_mutex true m) with
    | (Normal, m') => (Normal, set_mutex false m')
    | (Thrown e, m') => (Thrown e, set_mutex false m')
    | r => r
    end.

(** [operator+=] *)
Definition subscribe (cb : callback) (m : machine) : result :=
  lock_guard (λ m,
    (Normal, set_callbacks (Vector.push_back cb (_callbacks (event m))) m)) m.

(** [operator-=] *)
Definition unsubscribe (cb : callback) (m : machine) : result :=
  lock_guard (λ m,
    let '(v, it) := Vector.remove cb (_callbacks (event m)) in
    if decide (it ≠ Vector.size v)
    then (Normal, set_callbacks (Vector.erase it (Vector.size v) v) m)
    else (Normal, set_callbacks v m)) m.

(** [cb(args...)] for a handle held by this event. *)
Definition call (cb : callback) (a : Args) (m : machine) : result :=
  call subscribe unsubscribe code cb a m.

(** The loop of [operator()] over the handles [l], entered in [m]. *)
Definition for_each (l : list callback) (a : Args) (m : machine) : result :=
  range_for _callbacks subscribe unsubscribe code
    l (Vector.epoch (_callbacks (event m))) a m.

(** [operator()] *)
Definition invoke (a : Args) (m : machine) : result :=
  lock_guard (λ m, for_each (Vector.data (_callbacks (event m))) a m) m.

Definition step (o : op Args) (m : machine) : result :=
  match o with
  | Subscribe cb => subscribe cb m
  | Unsubscribe cb => unsubscribe cb m
  | Invoke a => invoke a m
  end.

Fixpoint run (ops : list (op Args)) (m : machine) : result :=
  match ops with
  | [] => (Normal, m)
  | o :: ops' =>
      match step o m with
      | (Normal, m') => run ops' m'
      | r => r
      end
  end.

Definition handles (m : machine) : list callback :=
  Vector.data (_callbacks (event m)).
End concurrent_static_event.
End ConcurrentStaticEvent.

(** ** The [TestCaller] of static_event_test.cpp

    The class the event names as its [Caller]: as a friend it may invoke
    the event and reach its private vector. *)

Module TestCaller.
Section test_caller.
Context {Args W exn : Type}.
Variable code : nat → Args → W → list (action W exn).

(** [trigger_event(value)]: [event(value);] *)
Definition trigger_event (value : Args)
    (m : machine Args W StaticEvent.static_event) :
    result Args W exn StaticEvent.static_event :=
  StaticEvent.invoke code value m.

(** [reset()]: [event._callbacks.clear();] *)
Definition reset (m : machine Args W StaticEvent.static_event) :
    machine Args W StaticEvent.static_event :=
  set_event (StaticEvent.Build (Vector.clear (StaticEvent._callbacks (event m)))) m.
End test_caller.
End TestCaller.

(** ** The string utilities (string.cpp) and the case-insensitive
    functors (ci_map.hpp)

    A [std::string] is the list of its characters, each given by its
    value as [unsigned char]; the functions of <cctype> are those of the
    "C" locale, the only one the library can run in, as nothing in it calls
    [setlocale]. *)

Module Str.

(** The values of an [unsigned char], and those of the 7-bit characters,
    the same whether [char] is signed or not. *)
Definition is_byte (c : Z) : Prop := (0 ≤ c < 256)%Z.
Definition is_ascii (c : Z) : Prop := (0 ≤ c < 128)%Z.

Definition isdigit (c : Z) : bool := (48 <=? c)%Z && (c <=? 57)%Z.
Definition isupper (c : Z) : bool := (65 <=? c)%Z && (c <=? 90)%Z.
Definition islower (c : Z) : bool := (97 <=? c)%Z && (c <=? 122)%Z.
Definition isalnum (c : Z) : bool := isdigit c || isupper c || islower c.
Definition tolower (c : Z) : Z := if isupper c then (c + 32)%Z else c.
Definition toupper (c : Z) : Z := if islower c then (c - 32)%Z else c.

(** [enum class string_compare_type] *)
Inductive string_compare_type : Type :=
  | ordinal
  | ordinal_ignore_case.

(** [enum class string_split_options], by the value of its underlying
    [int]; on two's complement integers the bitwise operators of C++ are
    those of [Z]. *)
Definition none : Z := 0.
Definition remove_empty_entries : Z := 1.
Definition trim_left : Z := 2.
Definition trim_right : Z := 4.
Definition trim : Z := Z.lor trim_left trim_right.


(** [operator|], [operator&], [operator^], [operator~] *)
Definition op_or (lhs rhs : Z) : Z := Z.lor lhs rhs.
Definition op_and (lhs rhs : Z) : Z := Z.land lhs rhs.
Definition op_xor (lhs rhs : Z) : Z := Z.lxor lhs rhs.
Definition op_not (lhs : Z) : Z := Z.lnot lhs.

Definition has_flag (options flag : Z) : bool :=
  (op_and options flag =? flag)%Z.

Definition str_to_lower (str : list Z) : list Z := tolower <$> str.

Definition str_to_upper (str : list Z) : list Z := toupper <$> str.

(** The loop of [str_to_slug]; [result] and [last_was_sep] are its two
    variables. *)
Fixpoint slug_loop (str result : list Z) (last_was_sep : bool) (separator : Z) :
    list Z :=
  match str with
  | [] => result
  | c :: str' =>
      if isalnum c then slug_loop str' (result ++ [tolower c]) false separator
      else if negb last_was_sep
           then slug_loop str' (result ++ [separator]) true separator
           else slug_loop str' result last_was_sep separator
  end.

(** A non-empty run of digits and lower-case letters. *)
Definition slug_word (word : list Z) : Prop :=
  word ≠ [] ∧ Forall (λ c, isdigit c || islower c = true) word.

Definition str_to_slug (str : list Z) (separator : Z) : list Z :=
  let result := slug_loop str [] true separator in
  match last result with
  | Some b => if (b =? separator)%Z then removelast result else result
  | None => result
  end.

(** [" \t\n\r\f\v"], the default of the [whitespace] arguments. *)
Definition default_whitespace : list Z := [32; 9; 10; 13; 12; 11]%Z.

(** [str.find_first_not_of(whitespace)]; [None] is [npos]. *)
Fixpoint find_first_not_of (str whitespace : list Z) : option nat :=
  match str with
  | [] => None
  | c :: str' =>
      if decide (c ∈ whitespace) then S <$> find_first_not_of str' whitespace
      else Some 0
  end.

(** [str.find_last_not_of(whitespace)] *)
Fixpoint find_last_not_of (str whitespace : list Z) : option nat :=
  match str with
  | [] => None
  | c :: str' =>
      match find_last_not_of str' whitespace with
      | Some i => Some (S i)
      | None => if decide (c ∈ whitespace) then None else Some 0
      end
  end.

(** [str.substr(pos, count)] for [pos <= str.size()]. *)
Definition substr (str : list Z) (pos count : nat) : list Z :=
  take count (drop pos str).

(** When [begin] is not [npos] neither is [end]; the model gives the
    empty string to the combination that cannot occur. *)
Definition str_trim (str whitespace : list Z) : list Z :=
  match find_first_not_of str whitespace with
  | None => []
  | Some begin =>
      match find_last_not_of str whitespace with
      | Some end_ => substr str begin (end_ - begin + 1)
      | None => []
      end
  end.

(** A string that neither begins nor ends with a character of
    [whitespace]. *)
Definition trimmed (whitespace t : list Z) : Prop :=
  (∀ c, head t = Some c → c ∉ whitespace)
  ∧ (∀ c, last t = Some c → c ∉ whitespace).

Definition str_trim_left (str whitespace : list Z) : list Z :=
  match find_first_not_of str whitespace with
  | None => []
  | Some begin => drop begin str
  end.

Definition str_trim_right (str whitespace : list Z) : list Z :=
  match find_last_not_of str whitespace with
  | None => []
  | Some end_ => substr str 0 (end_ + 1)
  end.

(** [str.find(from, 0)] for a non-empty [from]: the offset of its first
    occurrence. *)
Fixpoint find (str from : list Z) : option nat :=
  if decide (from `prefix_of` str) then Some 0
  else match str with
       | [] => None
       | _ :: str' => S <$> find str' from
       end.

(** The loop of [str_replace]: [rest] is [str] from [prev] on, and every
    turn consumes at least one character of it. *)
Fixpoint replace_loop (fuel : nat) (rest from to result : list Z) : list Z :=
  match fuel with
  | 0 => result ++ rest
  | S fuel' =>
      match find rest from with
      | Some pos =>
          replace_loop fuel' (drop (pos + length from) rest) from to
            (result ++ take pos rest ++ to)
      | None => result ++ rest
      end
  end.

Definition str_replace (str from to : list Z) : list Z :=
  if decide (from = []) then str
  else replace_loop (length str) str from to [].

(** The loops of [str_starts_with], [str_ends_with] and [str_equals] under
    [ordinal_ignore_case]: [count] more characters, [a[offset + i]] against
    [b[i]]. *)
Fixpoint ignore_case_loop (count i offset : nat) (a b : list Z) : bool :=
  match count with
  | 0 => true
  | S count' =>
      match a !! (offset + i), b !! i with
      | Some x, Some y =>
          if (tolower x =? tolower y)%Z
          then ignore_case_loop count' (S i) offset a b
          else false
      | _, _ => false
      end
  end.

(** [a.compare(pos, count, b) == 0] *)
Definition compare_eq (a : list Z) (pos count : nat) (b : list Z) : bool :=
  bool_decide (substr a pos count = b).

Definition str_starts_with (str prefix : list Z) (compare_type : string_compare_type) :
    bool :=
  if decide (length str < length prefix) then false
  else match compare_type with
       | ordinal_ignore_case => ignore_case_loop (length prefix) 0 0 str prefix
       | ordinal => compare_eq str 0 (length prefix) prefix
       end.

Definition str_ends_with (str suffix : list Z) (compare_type : string_compare_type) :
    bool :=
  if decide (length str < length suffix) then false
  else
    let offset := length str - length suffix in
    match compare_type with
    | ordinal_ignore_case => ignore_case_loop (length suffix) 0 offset str suffix
    | ordinal => compare_eq str offset (length suffix) suffix
    end.

Definition str_equals (str1 str2 : list Z) (compare_type : string_compare_type) :
    bool :=
  if decide (length str1 ≠ length str2) then false
  else match compare_type with
       | ordinal_ignore_case => ignore_case_loop (length str1) 0 0 str1 str2
       | ordinal => bool_decide (str1 = str2)
       end.

(** [std::getline(ss, token, delimiter)] on what is left of the stream:
    it fails when nothing is left, and otherwise gives the characters up to
    the next delimiter, which it consumes, or up to the end. *)
Fixpoint read_until (delimiter : Z) (ss : list Z) : list Z * list Z :=
  match ss with
  | [] => ([], [])
  | c :: ss' =>
      if decide (c = delimiter) then ([], ss')
      else let '(token, rest) := read_until delimiter ss' in (c :: token, rest)
  end.

Definition getline (ss : list Z) (delimiter : Z) : option (list Z * list Z) :=
  match ss with
  | [] => None
  | _ => Some (read_until delimiter ss)
  end.

(** The trimming of one token in [str_split]. *)
Definition trim_token (token : list Z) (options : Z) : list Z :=
  let ltrim := has_flag options trim_left in
  let rtrim := has_flag options trim_right in
  if ltrim then
    if rtrim then str_trim token default_whitespace
    else str_trim_left token default_whitespace
  else if rtrim then str_trim_right token default_whitespace
  else token.

(** The [while (std::getline(...))] loop of [str_split]; every turn
    consumes at least one character of the stream. *)
Fixpoint split_loop (fuel : nat) (ss : list Z) (delimiter options : Z)
    (result : list (list Z)) : list (list Z) :=
  match fuel with
  | 0 => result
  | S fuel' =>
      match getline ss delimiter with
      | None => result
      | Some (token, ss') =>
          if bool_decide (token = []) && has_flag options remove_empty_entries
          then split_loop fuel' ss' delimiter options result
          else split_loop fuel' ss' delimiter options
                 (result ++ [trim_token token options])
      end
  end.

Definition str_split (str : list Z) (delimiter options : Z) : list (list Z) :=
  if decide (str = []) then []
  else
    let result := split_loop (length str) str delimiter options [] in
    if bool_decide (str ≠ []) && bool_decide (last str = Some delimiter)
       && negb (has_flag options remove_empty_entries)
    then result ++ [[]]
    else result.

(** What [str_split] returns under [none] for a non-empty string: the
    tokens of the loop, and one more empty entry after a final
    delimiter. *)
Definition fields (fuel : nat) (ss : list Z) (d : Z) : list (list Z) :=
  split_loop fuel ss d none []
  ++ (if bool_decide (last ss = Some d) then [[]] else []).

(** [oss << *it++; for (; it != strings.end(); ++it) oss << delimiter << *it;] *)
Definition str_join (strings : list (list Z)) (delimiter : list Z) : list Z :=
  match strings with
  | [] => []
  | first :: rest => fold_left (λ oss s, oss ++ delimiter ++ s) rest first
  end.

(** The loop of [str_obfuscate] from index [i] on.  [i % key_length] with
    an empty key is a division by zero: the function then has no defined
    result.  The exclusive or of two [char]s, converted back to [char], is
    the exclusive or of their bytes. *)
Fixpoint obfuscate_from (i : nat) (rest key : list Z) : option (list Z) :=
  match rest with
  | [] => Some []
  | c :: rest' =>
      if decide (length key = 0) then None
      else
        match key !! (i mod length key), obfuscate_from (S i) rest' key with
        | Some k, Some result => Some (Z.lxor c k :: result)
        | _, _ => None
        end
  end.

Definition str_obfuscate (str key : list Z) : option (list Z) :=
  obfuscate_from 0 str key.

Definition str_deobfuscate (str key : list Z) : option (list Z) :=
  str_obfuscate str key.

(** [ci_hash::operator()], with a 64-bit [size_t]. *)
Definition ci_hash (str : list Z) : Z :=
  fold_left (λ hash c, ((Z.shiftl hash 5 + hash + tolower c) mod 2 ^ 64)%Z) str 0%Z.

(** [ci_equal::operator()] *)
Definition ci_equal (lhs rhs : list Z) : bool :=
  str_equals lhs rhs ordinal_ignore_case.

End Str.

(** A [concurrent_static_event] holding the same vector as a
    [static_event], its mutex owned or not. *)
Definition as_concurrent (owned : bool) (e : StaticEvent.static_event) :
    ConcurrentStaticEvent.concurrent_static_event :=
  ConcurrentStaticEvent.Build owned (StaticEvent._callbacks e).

(** ** The test fixture of static_event_test.cpp *)

Module Fixture.
(** [CallbackTracker]'s two static counters. *)
Record tracker : Type := Tracker { counter : Z; last_value : Z }.

Inductive fault : Type := Boom.

Definition callback1 : callback := fnptr 1.
Definition callback2 : callback := fnptr 2.
(** A further subscriber, not part of the test file: it throws. *)
Definition faulty : callback := fnptr 3.

Definition code (f : nat) (val : Z) (w : tracker) : list (action tracker fault) :=
  match f with
  | 1 => [Update (λ t, Tracker (counter t + 1) (last_value t));
          Update (λ t, Tracker (counter t) val)]
  | 2 => [Update (λ t, Tracker (counter t + 2) (last_value t));
          Update (λ t, Tracker (counter t) val)]
  | 3 => [Throw Boom]
  | _ => []
  end.

(** The same program with one more subscriber, which unsubscribes
    [callback2] from the event that is calling it. *)
Definition meddler : callback := fnptr 4.

Definition code_with_meddler (f : nat) (val : Z) (w : tracker) :
    list (action tracker fault) :=
  match f with
  | 4 => [Unsub callback2]
  | _ => code f val w
  end.

Definition start : tracker := Tracker 0 0.

(** [TestCaller::event] as constructed, with the counters at zero. *)
Definition fresh : machine Z tracker StaticEvent.static_event :=
  Machine StaticEvent.empty start [].

Definition fresh_concurrent :
    machine Z tracker ConcurrentStaticEvent.concurrent_static_event :=
  Machine ConcurrentStaticEvent.empty start [].
End Fixture.

(** The four scenarios of the test file. *)

Example SubscribeAndInvoke :
  let r := StaticEvent.run Fixture.code
             [Subscribe Fixture.callback1; Subscribe Fixture.callback2; Invoke 42%Z]
             Fixture.fresh in
  r.1 = Normal ∧ globals r.2 = Fixture.Tracker 3 42.
Proof. done. Qed.

Example UnsubscribeCallback :
  let r := StaticEvent.run Fixture.code
             [Subscribe Fixture.callback1; Subscribe Fixture.callback2;
              Unsubscribe Fixture.callback1; Invoke 7%Z]
             Fixture.fresh in
  r.1 = Normal ∧ globals r.2 = Fixture.Tracker 2 7.
Proof. done. Qed.

Example UnsubscribeNonexistentCallback :
  StaticEvent.run Fixture.code [Unsubscribe Fixture.callback1] Fixture.fresh
  = (Normal, Fixture.fresh).
Proof. done. Qed.

Example MultipleSubscriptionsOfSameCallback :
  let r := StaticEvent.run Fixture.code
             [Subscribe Fixture.callback1; Subscribe Fixture.callback1; Invoke 10%Z]
             Fixture.fresh in
  r.1 = Normal ∧ globals r.2 = Fixture.Tracker 2 10.
Proof. done. Qed.

Example SubscribeAndInvoke_concurrent :
  let r := ConcurrentStaticEvent.run Fixture.code
             [Subscribe Fixture.callback1; Subscribe Fixture.callback2; Invoke 42%Z]
             Fixture.fresh_concurrent in
  r.1 = Normal ∧ globals r.2 = Fixture.Tracker 3 42
  ∧ ConcurrentStaticEvent._mutex (event r.2) = false.
Proof. done. Qed.

(** A callback that unsubscribes a handle which is not in the sequence:
    harmless for [static_event], while [concurrent_static_event] blocks on
    the mutex that [operator()] is holding and never reaches the next
    callback. *)
Example meddler_static :
  let r := StaticEvent.run Fixture.code_with_meddler
             [Subscribe Fixture.meddler; Subscribe Fixture.callback1; Invoke 1%Z]
             Fixture.fresh in
  r.1 = Normal
  ∧ calls r.2 = [(Fixture.meddler, 1%Z); (Fixture.callback1, 1%Z)].
Proof. done. Qed.

Example meddler_concurrent :
  let r := ConcurrentStaticEvent.run Fixture.code_with_meddler
             [Subscribe Fixture.meddler; Subscribe Fixture.callback1; Invoke 1%Z]
             Fixture.fresh_concurrent in
  r.1 = Deadlock ∧ calls r.2 = [(Fixture.meddler, 1%Z)].
Proof. done. Qed.

(** A callback that unsubscribes a handle which is in the sequence erases
    from the vector [operator()] is iterating over. *)
Example meddler_invalidates_iterators :
  (StaticEvent.run Fixture.code_with_meddler
     [Subscribe Fixture.meddler; Subscribe Fixture.callback2; Invoke 1%Z]
     Fixture.fresh).1
  = Undefined.
Proof. done. Qed.

(** A callback that throws: the callbacks after it are not called. *)
Example faulty_stops_the_loop :
  let r := StaticEvent.run Fixture.code
             [Subscribe Fixture.callback1; Subscribe Fixture.faulty;
              Subscribe Fixture.callback2; Invoke 9%Z]
             Fixture.fresh in
  r.1 = Thrown Fixture.Boom
  ∧ calls r.2 = [(Fixture.callback1, 9%Z); (Fixture.faulty, 9%Z)]
  ∧ globals r.2 = Fixture.Tracker 1 9.
Proof. done. Qed.

(** * Properties

    ** [std::remove] *)

Module VectorFacts.
Import Vector.
Section vector.
Context {T : Type} `{EqDecision T}.
Set Default Proof Using "Type*".
Implicit Types (l : list T) (x y : T) (v : vector T).

Lemma find_le l x : find l x ≤ length l.
Proof. induction l as [|y l IH]; simpl; [lia|]. case_decide; lia. Qed.

Lemma find_present l x : x ∈ l → find l x < length l.
Proof.
  induction l as [|y l IH]; simpl.
  - by intros ?%elem_of_nil.
  - intros Hin. case_decide; [lia|].
    apply elem_of_cons in Hin as [->|Hin]; [done|]. apply IH in Hin. lia.
Qed.

Lemma find_take l x : keep x (take (find l x) l) = take (find l x) l.
Proof.
  induction l as [|y l IH]; simpl; [done|].
  case_decide; simpl; [done|].
  unfold keep in *. rewrite filter_cons_True by done. by rewrite IH.
Qed.

Lemma find_lookup l x : find l x < length l → l !! find l x = Some x.
Proof.
  induction l as [|y l IH]; simpl; [lia|].
  case_decide; simpl; [by subst|]. intros. apply IH. lia.
Qed.

Lemma keep_absent l x : x ∉ l → keep x l = l.
Proof.
  induction l as [|y l IH]; [done|].
  intros Hn. apply not_elem_of_cons in Hn as [Hne Hn].
  unfold keep in *. rewrite filter_cons_True by done. by rewrite IH.
Qed.

Lemma keep_present_length l x : x ∈ l → length (keep x l) < length l.
Proof.
  induction l as [|y l IH].
  - by intros ?%elem_of_nil.
  - intros Hin. unfold keep in *. destruct (decide (y = x)) as [->|Hne].
    + rewrite filter_cons_False by naive_solver. simpl.
      pose proof (length_filter (λ y, y ≠ x) l). lia.
    + rewrite filter_cons_True by done. simpl.
      apply elem_of_cons in Hin as [->|Hin]; [done|]. apply IH in Hin. lia.
Qed.

Lemma keep_cons_eq l x : keep x (x :: l) = keep x l.
Proof. unfold keep. by rewrite filter_cons_False by naive_solver. Qed.

Lemma keep_cons_ne l x y : y ≠ x → keep x (y :: l) = y :: keep x l.
Proof. intros. unfold keep. by rewrite filter_cons_True by done. Qed.

Lemma shift_spec n i first x l :
  first ≤ i → i + n = length l →
  take (shift n i first x l).2 (shift n i first x l).1
    = take first l ++ keep x (drop i l)
  ∧ length (shift n i first x l).1 = length l
  ∧ (shift n i first x l).2 = first + length (keep x (drop i l)).
Proof.
  revert i first l. induction n as [|n IH]; intros i first l Hle Hlen; simpl.
  - rewrite drop_ge by lia. simpl. rewrite app_nil_r. split_and!; [done|done|lia].
  - destruct (l !! i) as [y|] eqn:Hy; last first.
    { apply lookup_ge_None in Hy. lia. }
    rewrite (drop_S _ _ _ Hy). case_decide as Hxy.
    + subst y. rewrite keep_cons_eq. apply IH; lia.
    + rewrite keep_cons_ne by done.
      destruct (IH (S i) (S first) (<[first:=y]> l)) as (H1 & H2 & H3);
        [lia|rewrite length_insert; lia|].
      rewrite length_insert in H2.
      rewrite drop_insert_lt in H1, H3 by lia.
      rewrite (take_S_r _ _ y) in H1
        by (apply list_lookup_insert_eq; lia).
      rewrite take_insert_ge in H1 by lia.
      rewrite <- app_assoc in H1. simpl in *.
      split_and!; [done|done|lia].
Qed.

(** The range before the returned iterator holds the elements different
    from [x], in their original order; the size is unchanged and so is the
    epoch. *)
Lemma remove_spec x v :
  take (remove x v).2 (data (remove x v).1) = keep x (data v)
  ∧ size (remove x v).1 = size v
  ∧ (remove x v).2 = length (keep x (data v))
  ∧ epoch (remove x v).1 = epoch v.
Proof.
  unfold remove, size. destruct v as [l g]; simpl.
  pose proof (find_le l x) as Hle.
  case_decide as Hf; simpl.
  - assert (x ∉ l) as Hn.
    { intros Hin%find_present. lia. }
    rewrite keep_absent by done. rewrite Hf. rewrite take_ge by done. done.
  - assert (find l x < length l) as Hlt by lia.
    pose proof (shift_spec (length l - S (find l x)) (S (find l x))
                  (find l x) x l) as (H1 & H2 & H3); [lia|lia|].
    destruct (shift _ _ _ _ _) as [l' it]; simpl in *.
    assert (keep x l = take (find l x) l ++ keep x (drop (S (find l x)) l)) as Hk.
    { rewrite <- (take_drop (find l x) l) at 1.
      unfold keep. rewrite filter_app. fold (keep x (take (find l x) l)).
      rewrite find_take. f_equal.
      rewrite (drop_S _ _ _ (find_lookup _ _ Hlt)).
      apply keep_cons_eq. }
    rewrite Hk. split_and!; [done|done| |done].
    rewrite H3, length_app, length_take. lia.
Qed.

Lemma keep_occurrences l x :
  length (keep x l) + length (filter (λ y, y = x) l) = length l.
Proof.
  induction l as [|y l IH]; [done|].
  destruct (decide (y = x)) as [->|Hne].
  - rewrite keep_cons_eq, filter_cons_True by done. simpl. lia.
  - rewrite keep_cons_ne, filter_cons_False by done. simpl. lia.
Qed.

Lemma not_elem_of_keep l x : x ∉ keep x l.
Proof. unfold keep. by intros [? _]%list_elem_of_filter. Qed.

(** The erase-remove idiom as both classes write it: when [x] occurs,
    the vector is cut down to the other elements and its iterators are
    invalidated; when it does not, nothing at all happens. *)
Lemma remove_erase x v :
  (let '(v', it) := remove x v in
   if decide (it ≠ size v') then erase it (size v') v' else v')
  = if decide (x ∈ data v) then Build (keep x (data v)) (S (epoch v)) else v.
Proof.
  pose proof (remove_spec x v) as (H1 & H2 & H3 & H4).
  destruct (remove x v) as [v' it]; simpl in *.
  destruct (decide (x ∈ data v)) as [Hin|Hn].
  - apply keep_present_length in Hin.
    rewrite decide_True by (unfold size in *; lia).
    unfold erase, size. rewrite drop_ge by done.
    by rewrite app_nil_r, H1, H4.
  - rewrite keep_absent in H1, H3 by done.
    rewrite decide_False by (unfold size in *; lia).
    destruct v as [l g], v' as [l' g']; unfold size in *; simpl in *.
    rewrite take_ge in H1 by lia. by subst.
Qed.
End vector.
End VectorFacts.

(** ** Running callbacks *)

Section LoopFacts.
Context {Args W exn E : Type}.
Variable vec : E → Vector.vector callback.
Variables subscribe unsubscribe : callback → machine Args W E → result Args W exn E.
Variable code : nat → Args → W → list (action W exn).
Implicit Types (m : machine Args W E) (a : Args) (l : list callback).

Local Abbreviation exec := (run_actions subscribe unsubscribe).
Local Abbreviation call_cb := (call subscribe unsubscribe code).
Local Abbreviation loop := (range_for vec subscribe unsubscribe code).
Local Abbreviation gen m := (Vector.epoch (vec (event m))).

Lemma calm_quiet (acts : list (action W exn)) : calm acts = true → quiet acts = true.
Proof.
  unfold calm, quiet. rewrite !forallb_forall. intros H act Hin.
  specialize (H act Hin). by apply andb_true_iff in H as [? _].
Qed.

Lemma well_behaved_non_reentrant cb :
  well_behaved code cb → non_reentrant code cb.
Proof. destruct cb; simpl; [done|]. intros H a w. apply calm_quiet, H. Qed.

Lemma effect_calm (acts : list (action W exn)) w :
  calm acts = true → (effect acts w).1 = Normal.
Proof.
  revert w. induction acts as [|[f|cb|cb|e] acts IH]; intros w; simpl; try done.
  intros H. by apply IH.
Qed.

(** A quiet body acts on the globals alone. *)
Lemma run_actions_quiet acts m :
  quiet acts = true →
  exec acts m
  = ((effect acts (globals m)).1, set_globals (effect acts (globals m)).2 m).
Proof.
  revert m. induction acts as [|[f|cb|cb|e] acts IH]; intros m; simpl; try done.
  - by destruct m.
  - intros H. by rewrite IH.
  - by destruct m.
Qed.

Lemma call_quiet f a m :
  quiet (code f a (globals m)) = true →
  call_cb (fnptr f) a m
  = ((effect (code f a (globals m)) (globals m)).1,
     set_globals (effect (code f a (globals m)) (globals m)).2
       (record_call (fnptr f) a m)).
Proof. intros H. unfold call. by rewrite run_actions_quiet. Qed.

Lemma range_for_app l1 l2 g a m :
  loop (l1 ++ l2) g a m
  = match loop l1 g a m with
    | (Normal, m1) => loop l2 g a m1
    | r => r
    end.
Proof.
  revert m. induction l1 as [|cb l1 IH]; intros m; simpl; [done|].
  destruct (call_cb cb a m) as [[] m1]; try done.
  case_decide; [apply IH | done].
Qed.

(** Callbacks that never use the event leave it as it is, however the
    loop ends. *)
Lemma range_for_quiet l a m st m' :
  Forall (non_reentrant code) l →
  loop l (gen m) a m = (st, m') →
  event m' = event m.
Proof.
  intros Hl. revert m. induction Hl as [|cb l Hcb Hl IH]; intros m; simpl.
  - by intros [= _ <-].
  - destruct cb as [|f]; [by intros [= _ <-]|].
    rewrite call_quiet by apply Hcb.
    destruct (effect _ _) as [[] w]; simpl; try by intros [= _ <-].
    rewrite decide_True by done. intros Hr.
    by apply (IH (set_globals w (record_call (fnptr f) a m))) in Hr.
Qed.

(** Well-behaved callbacks are all called, in order, and the loop
    returns. *)
Lemma range_for_calm l a m :
  Forall (well_behaved code) l →
  ∃ m', loop l (gen m) a m = (Normal, m')
        ∧ event m' = event m
        ∧ calls m' = calls m ++ with_args a l.
Proof.
  intros Hl. revert m. induction Hl as [|cb l Hcb Hl IH]; intros m; simpl.
  - exists m. by rewrite app_nil_r.
  - destruct cb as [|f]; [done|].
    rewrite call_quiet by apply calm_quiet, Hcb.
    pose proof (effect_calm (code f a (globals m)) (globals m) (Hcb _ _)) as Hn.
    destruct (effect _ _) as [st w]; simpl in *; subst st.
    rewrite decide_True by done.
    destruct (IH (set_globals w (record_call (fnptr f) a m))) as (m' & Hr & He & Hc).
    exists m'. split_and!; [done|done|].
    rewrite Hc. simpl. by rewrite <- app_assoc.
Qed.

Section frame.
Hypothesis subscribe_preserves : ∀ cb, preserves vec (subscribe cb).
Hypothesis unsubscribe_preserves : ∀ cb, preserves vec (unsubscribe cb).

Lemma run_actions_frame acts m st m' :
  exec acts m = (st, m') →
  calls m' = calls m ∧ gen m ≤ gen m' ∧ (gen m' = gen m → event m' = event m).
Proof using subscribe_preserves unsubscribe_preserves.
  revert m. induction acts as [|[f|cb|cb|e] acts IH]; intros m; simpl.
  - by intros [= _ <-].
  - intros Hr. by apply IH in Hr.
  - destruct (subscribe cb m) as [s1 m1] eqn:Hs.
    apply subscribe_preserves in Hs as (Hc & _ & Hle & Heq).
    destruct s1; try (intros [= _ <-]; done).
    intros (Hc' & Hle' & Heq')%IH. split_and!; [congruence|lia|].
    intros Hg. rewrite Heq' by lia. apply Heq. lia.
  - destruct (unsubscribe cb m) as [s1 m1] eqn:Hs.
    apply unsubscribe_preserves in Hs as (Hc & _ & Hle & Heq).
    destruct s1; try (intros [= _ <-]; done).
    intros (Hc' & Hle' & Heq')%IH. split_and!; [congruence|lia|].
    intros Hg. rewrite Heq' by lia. apply Heq. lia.
  - by intros [= _ <-].
Qed.

Lemma call_frame cb a m st m' :
  call_cb cb a m = (st, m') →
  calls m' = calls m ++ [(cb, a)]
  ∧ gen m ≤ gen m' ∧ (gen m' = gen m → event m' = event m).
Proof using subscribe_preserves unsubscribe_preserves.
  destruct cb as [|f]; simpl.
  - by intros [= _ <-].
  - intros Hr. by apply run_actions_frame in Hr.
Qed.

(** Whatever the callbacks do, the calls made by the loop are an
    initial part of the range, in order; and when the loop returns it
    has called the whole range and the event is as it was. *)
Lemma range_for_calls l a m st m' :
  loop l (gen m) a m = (st, m') →
  ∃ l1 l2, l = l1 ++ l2
    ∧ calls m' = calls m ++ with_args a l1
    ∧ (st = Normal → l2 = [] ∧ event m' = event m).
Proof using subscribe_preserves unsubscribe_preserves.
  revert m st m'. induction l as [|cb l IH]; intros m st m'; simpl.
  - intros [= <- <-]. exists [], []. simpl. rewrite app_nil_r. by split_and!.
  - destruct (call_cb cb a m) as [s1 m1] eqn:Hcall.
    apply call_frame in Hcall as (Hc & Hle & Heq).
    assert (∀ s : status exn, s ≠ Normal →
            ∃ l1 l2, cb :: l = l1 ++ l2
              ∧ calls m1 = calls m ++ with_args a l1
              ∧ (s = Normal → l2 = [] ∧ event m1 = event m)) as Hstop.
    { intros s Hs. exists [cb], l. by split_and!. }
    destruct s1; try (intros [= <- <-]; by apply Hstop).
    case_decide as Hg; [|intros [= <- <-]; by apply Hstop].
    rewrite <- Hg. intros (l1 & l2 & -> & Hc' & Hn)%IH.
    exists (cb :: l1), l2. split_and!; [done| |].
    + rewrite Hc', Hc. simpl. by rewrite <- app_assoc.
    + intros [-> ->]%Hn. split; [done|]. by apply Heq.
Qed.
End frame.
End LoopFacts.

(** ** [static_event]: the three operators *)

Section StaticEventFacts.
Import StaticEvent.
Context {Args W exn : Type}.
Variable code : nat → Args → W → list (action W exn).
Implicit Types (m : machine Args W static_event) (a : Args) (cb : callback).

Lemma static_subscribe_eq cb m :
  subscribe (exn:=exn) cb m
  = (Normal, set_event (Build (Vector.push_back cb (_callbacks (event m)))) m).
Proof. done. Qed.

Lemma static_unsubscribe_eq cb m :
  unsubscribe (exn:=exn) cb m
  = (Normal,
     if decide (cb ∈ handles m)
     then set_event (Build (Vector.Build (Vector.keep cb (handles m))
                              (S (Vector.epoch (_callbacks (event m)))))) m
     else m).
Proof.
  unfold unsubscribe, handles.
  pose proof (VectorFacts.remove_erase cb (_callbacks (event m))) as H.
  destruct (Vector.remove cb (_callbacks (event m))) as [v it].
  transitivity
    (@Normal exn,
     set_event (Build (if decide (it ≠ Vector.size v)
                       then Vector.erase it (Vector.size v) v else v)) m).
  { by case_decide. }
  rewrite H. clear H. case_decide; [done|]. by destruct m as [[?] ? ?].
Qed.

Lemma static_subscribe_preserves cb :
  preserves _callbacks (subscribe (Args:=Args) (W:=W) (exn:=exn) cb).
Proof.
  intros m st m'. rewrite static_subscribe_eq. intros [= <- <-]; simpl.
  split_and!; [done|done|lia|lia].
Qed.

Lemma static_unsubscribe_preserves cb :
  preserves _callbacks (unsubscribe (Args:=Args) (W:=W) (exn:=exn) cb).
Proof.
  intros m st m'. rewrite static_unsubscribe_eq. intros [= <- <-].
  case_decide; simpl; split_and!; try done; lia.
Qed.

Lemma static_run_subscribes l m :
  run code (Subscribe <$> l) m
  = (Normal,
     set_event (Build (Vector.Build (handles m ++ l)
                         (length l + Vector.epoch (_callbacks (event m))))) m).
Proof.
  revert m. induction l as [|cb l IH]; intros m; simpl.
  - rewrite app_nil_r. by destruct m as [[[]] ? ?].
  - rewrite IH. unfold handles, set_event; simpl.
    rewrite <- app_assoc. simpl. do 4 f_equal. lia.
Qed.

(** Whatever the callbacks do, what [operator()] calls is an initial
    part of the sequence, in order. *)
Lemma static_invoke_calls a m st m' :
  invoke code a m = (st, m') →
  ∃ l1 l2, handles m = l1 ++ l2
    ∧ calls m' = calls m ++ with_args a l1
    ∧ (st = Normal → l2 = [] ∧ event m' = event m).
Proof.
  apply (range_for_calls _callbacks subscribe unsubscribe code);
    auto using static_subscribe_preserves, static_unsubscribe_preserves.
Qed.

Lemma static_for_each_app l1 l2 a m :
  for_each code (l1 ++ l2) a m
  = match for_each code l1 a m with
    | (Normal, m1) => for_each code l2 a m1
    | r => r
    end.
Proof.
  unfold for_each. rewrite range_for_app.
  destruct (range_for _ _ _ _ l1 _ a m) as [[] m1] eqn:Hr; try done.
  apply (range_for_calls _callbacks subscribe unsubscribe code) in Hr
    as (k1 & k2 & _ & _ & Hn);
    auto using static_subscribe_preserves, static_unsubscribe_preserves.
  destruct (Hn eq_refl) as [_ He]. by rewrite He.
Qed.
End StaticEventFacts.

(** ** [concurrent_static_event]: the three operators *)

Section ConcurrentStaticEventFacts.
Import ConcurrentStaticEvent.
Context {Args W exn : Type}.
Variable code : nat → Args → W → list (action W exn).
Implicit Types (m : machine Args W concurrent_static_event) (a : Args).
Implicit Types (cb : callback).

(** Every operator blocks for ever when the calling thread already owns
    the mutex, which is the case inside a callback. *)
Lemma concurrent_subscribe_locked cb m :
  _mutex (event m) = true → subscribe (exn:=exn) cb m = (Deadlock, m).
Proof. intros H. unfold subscribe, lock_guard. by rewrite H. Qed.

Lemma concurrent_unsubscribe_locked cb m :
  _mutex (event m) = true → unsubscribe (exn:=exn) cb m = (Deadlock, m).
Proof. intros H. unfold unsubscribe, lock_guard. by rewrite H. Qed.

Lemma concurrent_invoke_locked a m :
  _mutex (event m) = true → invoke code a m = (Deadlock, m).
Proof. intros H. unfold invoke, lock_guard. by rewrite H. Qed.

Lemma concurrent_subscribe_eq cb m :
  _mutex (event m) = false →
  subscribe (exn:=exn) cb m
  = (Normal, set_callbacks (Vector.push_back cb (_callbacks (event m))) m).
Proof.
  intros H. unfold subscribe, lock_guard. rewrite H.
  destruct m as [[? ?] ? ?]; simpl in *. by subst.
Qed.

Lemma concurrent_unsubscribe_eq cb m :
  _mutex (event m) = false →
  unsubscribe (exn:=exn) cb m
  = (Normal,
     if decide (cb ∈ handles m)
     then set_callbacks (Vector.Build (Vector.keep cb (handles m))
                           (S (Vector.epoch (_callbacks (event m))))) m
     else m).
Proof.
  intros Hm. unfold unsubscribe, lock_guard, handles. rewrite Hm.
  pose proof (VectorFacts.remove_erase cb (_callbacks (event m))) as H.
  change (_callbacks (event (set_mutex true m))) with (_callbacks (event m)).
  destruct (Vector.remove cb (_callbacks (event m))) as [v it].
  transitivity
    (@Normal exn,
     set_callbacks (if decide (it ≠ Vector.size v)
                    then Vector.erase it (Vector.size v) v else v) m).
  { case_decide; destruct m as [[? ?] ? ?]; simpl in *; by subst. }
  rewrite H. clear H. case_decide; [done|].
  destruct m as [[? ?] ? ?]; simpl in *; by subst.
Qed.

Lemma concurrent_subscribe_preserves cb :
  preserves _callbacks (subscribe (Args:=Args) (W:=W) (exn:=exn) cb).
Proof.
  intros m st m'. destruct (_mutex (event m)) eqn:Hm.
  - rewrite concurrent_subscribe_locked by done. intros [= <- <-].
    split_and!; [done|done|lia|done].
  - rewrite concurrent_subscribe_eq by done. intros [= <- <-]; simpl.
    split_and!; [done|done|lia|lia].
Qed.

Lemma concurrent_unsubscribe_preserves cb :
  preserves _callbacks (unsubscribe (Args:=Args) (W:=W) (exn:=exn) cb).
Proof.
  intros m st m'. destruct (_mutex (event m)) eqn:Hm.
  - rewrite concurrent_unsubscribe_locked by done. intros [= <- <-].
    split_and!; [done|done|lia|done].
  - rewrite concurrent_unsubscribe_eq by done. intros [= <- <-].
    case_decide; simpl; split_and!; try done; lia.
Qed.

Lemma concurrent_invoke_eq a m :
  _mutex (event m) = false →
  invoke code a m
  = match for_each code (handles m) a (set_mutex true m) with
    | (Normal, m') => (Normal, set_mutex false m')
    | (Thrown e, m') => (Thrown e, set_mutex false m')
    | r => r
    end.
Proof. intros H. unfold invoke, lock_guard. by rewrite H. Qed.

(** While the callbacks run the mutex is owned, and it is released when
    [operator()] returns or is left by an exception. *)
Lemma concurrent_invoke_calls a m st m' :
  _mutex (event m) = false →
  invoke code a m = (st, m') →
  ∃ l1 l2, handles m = l1 ++ l2
    ∧ calls m' = calls m ++ with_args a l1
    ∧ (st = Normal → l2 = [] ∧ event m' = event m).
Proof.
  intros Hm. rewrite concurrent_invoke_eq by done.
  destruct (for_each _ _ _ _) as [s1 m1] eqn:Hr.
  apply (range_for_calls _callbacks subscribe unsubscribe code) in Hr
    as (l1 & l2 & Hl & Hc & Hn);
    auto using concurrent_subscribe_preserves, concurrent_unsubscribe_preserves.
  intros Hst. exists l1, l2. split; [done|].
  destruct s1; injection Hst as <- <-; (split; [done|]); try done.
  intros _. destruct (Hn eq_refl) as [-> He]. split; [done|].
  simpl. rewrite He. simpl. destruct m as [[? ?] ? ?]; simpl in *. by subst.
Qed.

Lemma concurrent_for_each_app l1 l2 a m :
  for_each code (l1 ++ l2) a m
  = match for_each code l1 a m with
    | (Normal, m1) => for_each code l2 a m1
    | r => r
    end.
Proof.
  unfold for_each. rewrite range_for_app.
  destruct (range_for _ _ _ _ l1 _ a m) as [[] m1] eqn:Hr; try done.
  apply (range_for_calls _callbacks subscribe unsubscribe code) in Hr
    as (k1 & k2 & _ & _ & Hn);
    auto using concurrent_subscribe_preserves, concurrent_unsubscribe_preserves.
  destruct (Hn eq_refl) as [_ He]. by rewrite He.
Qed.
End ConcurrentStaticEventFacts.

(** ** The two classes side by side *)

Section Simulation.
Context {Args W exn E1 E2 : Type}.
Variable vec1 : E1 → Vector.vector callback.
Variables sub1 unsub1 : callback → machine Args W E1 → result Args W exn E1.
Variable vec2 : E2 → Vector.vector callback.
Variables sub2 unsub2 : callback → machine Args W E2 → result Args W exn E2.
Variable code : nat → Args → W → list (action W exn).
Variable φ : E1 → E2.
Hypothesis vec_φ : ∀ e, vec2 (φ e) = vec1 e.

(** Callbacks that never use the event cannot tell which class calls
    them. *)
Lemma range_for_quiet_sim l g a (m : machine Args W E1) :
  Forall (non_reentrant code) l →
  range_for vec2 sub2 unsub2 code l g a (map_event φ m)
  = ((range_for vec1 sub1 unsub1 code l g a m).1,
     map_event φ (range_for vec1 sub1 unsub1 code l g a m).2).
Proof using vec_φ.
  intros Hl. revert m. induction Hl as [|cb l Hcb Hl IH]; intros m; simpl; [done|].
  destruct cb as [|f]; [done|].
  rewrite !call_quiet by apply Hcb. simpl.
  destruct (effect _ _) as [[] w]; simpl; try done.
  rewrite vec_φ. case_decide; [|done].
  apply (IH (set_globals w (record_call (fnptr f) a m))).
Qed.
End Simulation.

Section Agreement.
Context {Args W exn : Type}.
Variable code : nat → Args → W → list (action W exn).
Hypothesis no_reentry : ∀ cb, non_reentrant code cb.
Implicit Types (m : machine Args W StaticEvent.static_event).

Lemma set_mutex_as_concurrent b b' m :
  ConcurrentStaticEvent.set_mutex b' (map_event (as_concurrent b) m)
  = map_event (as_concurrent b') m.
Proof. done. Qed.

(** One operation, performed on both classes from the same sequence:
    the same outcome, the same sequence, globals and calls afterwards; the
    mutex is free again unless the program has gone wrong. *)
Lemma step_agree (o : op Args) m :
  ∃ b, ConcurrentStaticEvent.step code o (map_event (as_concurrent false) m)
       = ((StaticEvent.step code o m).1,
          map_event (as_concurrent b) (StaticEvent.step code o m).2)
     ∧ ((StaticEvent.step code o m).1 = Normal → b = false).
Proof using no_reentry.
  destruct o as [cb|cb|a]; simpl.
  - exists false. by rewrite concurrent_subscribe_eq.
  - exists false. rewrite concurrent_unsubscribe_eq, static_unsubscribe_eq by done.
    split; [|done]. simpl.
    unfold ConcurrentStaticEvent.handles, StaticEvent.handles. simpl.
    by case_decide.
  - rewrite concurrent_invoke_eq by done.
    rewrite set_mutex_as_concurrent.
    unfold ConcurrentStaticEvent.for_each, ConcurrentStaticEvent.handles.
    simpl.
    rewrite (range_for_quiet_sim StaticEvent._callbacks StaticEvent.subscribe
               StaticEvent.unsubscribe) by (done || by apply Forall_forall).
    unfold StaticEvent.invoke, StaticEvent.for_each.
    destruct (range_for _ _ _ _ _ _ _ _) as [[] m']; simpl;
      [exists false|exists false|exists true|exists true]; by split.
Qed.

Lemma run_agree (ops : list (op Args)) m :
  ∃ b, ConcurrentStaticEvent.run code ops (map_event (as_concurrent false) m)
       = ((StaticEvent.run code ops m).1,
          map_event (as_concurrent b) (StaticEvent.run code ops m).2).
Proof using no_reentry.
  revert m. induction ops as [|o ops IH]; intros m; simpl.
  - by exists false.
  - destruct (step_agree o m) as (b & -> & Hb).
    destruct (StaticEvent.step code o m) as [[] m']; simpl in *;
      try by exists b.
    rewrite Hb by done. apply IH.
Qed.
End Agreement.

(** *** Callbacks that do call back

    Without the assumption, the two classes still go the same way up to
    the first callback that uses the registry: there the concurrent class
    blocks on its own mutex, and that is the only way in which it can
    depart from [static_event]. *)

Section Blocking.
Context {Args W exn E1 E2 : Type}.
Variable vec1 : E1 → Vector.vector callback.
Variables sub1 unsub1 : callback → machine Args W E1 → result Args W exn E1.
Variable vec2 : E2 → Vector.vector callback.
Variables sub2 unsub2 : callback → machine Args W E2 → result Args W exn E2.
Variable code : nat → Args → W → list (action W exn).
Variable φ : E1 → E2.
Hypothesis vec_φ : ∀ e, vec2 (φ e) = vec1 e.
Hypothesis sub2_blocks : ∀ cb m, sub2 cb (map_event φ m) = (Deadlock, map_event φ m).
Hypothesis unsub2_blocks : ∀ cb m, unsub2 cb (map_event φ m) = (Deadlock, map_event φ m).

Lemma run_actions_blocking acts (m : machine Args W E1) :
  (run_actions sub2 unsub2 acts (map_event φ m)).1 = Deadlock
  ∨ run_actions sub2 unsub2 acts (map_event φ m)
    = ((run_actions sub1 unsub1 acts m).1,
       map_event φ (run_actions sub1 unsub1 acts m).2).
Proof using sub2_blocks unsub2_blocks.
  revert m. induction acts as [|[f|cb|cb|e] acts IH]; intros m; simpl.
  - by right.
  - apply (IH (set_globals (f (globals m)) m)).
  - left. by rewrite sub2_blocks.
  - left. by rewrite unsub2_blocks.
  - by right.
Qed.

Lemma range_for_blocking l g a (m : machine Args W E1) :
  (range_for vec2 sub2 unsub2 code l g a (map_event φ m)).1 = Deadlock
  ∨ range_for vec2 sub2 unsub2 code l g a (map_event φ m)
    = ((range_for vec1 sub1 unsub1 code l g a m).1,
       map_event φ (range_for vec1 sub1 unsub1 code l g a m).2).
Proof using vec_φ sub2_blocks unsub2_blocks.
  revert m. induction l as [|cb l IH]; intros m; simpl; [by right|].
  destruct cb as [|f]; simpl; [by right|].
  destruct (run_actions_blocking (code f a (globals m))
              (record_call (fnptr f) a m)) as [Hd|Heq].
  - left. change (globals (map_event φ m)) with (globals m).
    change (record_call (fnptr f) a (map_event φ m))
      with (map_event φ (record_call (fnptr f) a m)).
    destruct (run_actions sub2 unsub2 _ _) as [s2 m2]; simpl in *. by subst.
  - change (globals (map_event φ m)) with (globals m).
    change (record_call (fnptr f) a (map_event φ m))
      with (map_event φ (record_call (fnptr f) a m)).
    rewrite Heq.
    destruct (run_actions sub1 unsub1 _ _) as [[] m1]; simpl; try by right.
    rewrite vec_φ. case_decide; [apply IH|by right].
Qed.
End Blocking.

Section AgreementUnlessDeadlock.
Context {Args W exn : Type}.
Variable code : nat → Args → W → list (action W exn).
Implicit Types (m : machine Args W StaticEvent.static_event).

Lemma step_agree_unless_deadlock (o : op Args) m :
  (ConcurrentStaticEvent.step code o (map_event (as_concurrent false) m)).1
    = Deadlock
  ∨ ∃ b, ConcurrentStaticEvent.step code o (map_event (as_concurrent false) m)
         = ((StaticEvent.step code o m).1,
            map_event (as_concurrent b) (StaticEvent.step code o m).2)
       ∧ ((StaticEvent.step code o m).1 = Normal → b = false).
Proof.
  destruct o as [cb|cb|a]; simpl.
  - right. exists false. by rewrite concurrent_subscribe_eq.
  - right. exists false.
    rewrite concurrent_unsubscribe_eq, static_unsubscribe_eq by done.
    split; [|done]. simpl.
    unfold ConcurrentStaticEvent.handles, StaticEvent.handles. simpl.
    by case_decide.
  - rewrite concurrent_invoke_eq by done.
    unfold ConcurrentStaticEvent.for_each, ConcurrentStaticEvent.handles.
    simpl.
    destruct (range_for_blocking StaticEvent._callbacks StaticEvent.subscribe
                StaticEvent.unsubscribe ConcurrentStaticEvent._callbacks
                ConcurrentStaticEvent.subscribe ConcurrentStaticEvent.unsubscribe
                code (as_concurrent true) (λ _, eq_refl)
                (λ cb m', concurrent_subscribe_locked cb
                            (map_event (as_concurrent true) m') eq_refl)
                (λ cb m', concurrent_unsubscribe_locked cb
                            (map_event (as_concurrent true) m') eq_refl)
                (Vector.data (StaticEvent._callbacks (event m)))
                (Vector.epoch (StaticEvent._callbacks (event m))) a m)
      as [Hd|Heq].
    + left.
      change (ConcurrentStaticEvent.set_mutex true (map_event (as_concurrent false) m))
        with (map_event (as_concurrent true) m).
      destruct (range_for _ _ _ _ _ _ _ _) as [s2 m2]; simpl in *. by subst.
    + right.
      change (ConcurrentStaticEvent.set_mutex true (map_event (as_concurrent false) m))
        with (map_event (as_concurrent true) m).
      rewrite Heq. clear Heq. unfold StaticEvent.invoke, StaticEvent.for_each.
      destruct (range_for _ _ _ _ _ _ _ _) as [[] m']; simpl;
        [exists false|exists false|exists true|exists true]; by split.
Qed.

Lemma run_agree_unless_deadlock (ops : list (op Args)) m :
  (ConcurrentStaticEvent.run code ops (map_event (as_concurrent false) m)).1
    = Deadlock
  ∨ ∃ b, ConcurrentStaticEvent.run code ops (map_event (as_concurrent false) m)
         = ((StaticEvent.run code ops m).1,
            map_event (as_concurrent b) (StaticEvent.run code ops m).2).
Proof.
  revert m. induction ops as [|o ops IH]; intros m; simpl.
  - right. by exists false.
  - destruct (step_agree_unless_deadlock o m) as [Hd|(b & Heq & Hb)].
    + left. destruct (ConcurrentStaticEvent.step _ _ _) as [s2 m2];
        simpl in *. by subst.
    + rewrite Heq.
      destruct (StaticEvent.step code o m) as [[] m']; simpl in *;
        try (right; by exists b).
      rewrite Hb by done. apply IH.
Qed.

(** X25. Whenever the concurrent class gets through a list of operations
    without blocking on its own mutex, [static_event] ends in the same way
    with the same sequence, calls and globals. *)
Lemma classes_differ_by_deadlock_only (ops : list (op Args)) v w c :
  let rs := StaticEvent.run code ops (Machine (StaticEvent.Build v) w c) in
  let rc := ConcurrentStaticEvent.run code ops
              (Machine (ConcurrentStaticEvent.Build false v) w c) in
  rc.1 ≠ Deadlock →
  rc.1 = rs.1
  ∧ ConcurrentStaticEvent.handles rc.2 = StaticEvent.handles rs.2
  ∧ calls rc.2 = calls rs.2
  ∧ globals rc.2 = globals rs.2.
Proof.
  intros rs rc Hnd.
  destruct (run_agree_unless_deadlock ops (Machine (StaticEvent.Build v) w c))
    as [Hd|[b Hb]]; [done|].
  change (map_event (as_concurrent false) (Machine (StaticEvent.Build v) w c))
    with (Machine (Args:=Args) (ConcurrentStaticEvent.Build false v) w c) in Hb.
  subst rs rc. by rewrite Hb.
Qed.
End AgreementUnlessDeadlock.

(** ** The fixture's callbacks *)

Lemma callback1_well_behaved : well_behaved Fixture.code Fixture.callback1.
Proof. by intros a w. Qed.

Lemma callback2_well_behaved : well_behaved Fixture.code Fixture.callback2.
Proof. by intros a w. Qed.

Lemma fixture_non_reentrant cb : non_reentrant Fixture.code cb.
Proof.
  destruct cb as [|f]; [done|]. intros a w.
  do 4 (destruct f as [|f]; [done|]). done.
Qed.

(** * The contract of the registry *)

Section Contract.
Context {Args W exn : Type}.
Variable code : nat → Args → W → list (action W exn).
Implicit Types (v : Vector.vector callback) (w : W) (a : Args).
Implicit Types (c : list (callback * Args)) (cb h : callback).

Local Abbreviation S_ev := StaticEvent.Build.
Local Abbreviation C_ev := ConcurrentStaticEvent.Build.

(** C4. Unsubscribing a handle that is not in the sequence returns
    normally and changes nothing at all, in both classes: not the
    sequence, not the validity of iterators, not the mutex, not the rest
    of the program. *)
Theorem unsubscribe_absent_is_noop cb v w c :
  cb ∉ Vector.data v →
  StaticEvent.unsubscribe (exn:=exn) cb (Machine (S_ev v) w c)
    = (Normal, Machine (S_ev v) w c)
  ∧ ConcurrentStaticEvent.unsubscribe (exn:=exn) cb (Machine (C_ev false v) w c)
    = (Normal, Machine (C_ev false v) w c).
Proof.
  intros Hn. split.
  - rewrite static_unsubscribe_eq. by rewrite decide_False.
  - rewrite concurrent_unsubscribe_eq by done. by rewrite decide_False.
Qed.

(** C2. One [unsubscribe] of a handle that occurs [k ≥ 1] times removes
    all [k] occurrences and keeps the other entries in their order, in
    both classes; whatever the callbacks do, a following invocation does
    not call the handle. *)
Theorem unsubscribe_removes_all_occurrences cb k v w c a :
  1 ≤ k →
  occurrences cb (Vector.data v) = k →
  (∃ m, StaticEvent.unsubscribe (exn:=exn) cb (Machine (S_ev v) w c) = (Normal, m)
      ∧ StaticEvent.handles m = Vector.keep cb (Vector.data v)
      ∧ occurrences cb (StaticEvent.handles m) = 0
      ∧ length (StaticEvent.handles m) + k = length (Vector.data v)
      ∧ globals m = w ∧ calls m = c
      ∧ ∀ st m', StaticEvent.invoke code a m = (st, m') →
          ∃ l, calls m' = c ++ with_args a l ∧ cb ∉ l)
  ∧ (∃ m, ConcurrentStaticEvent.unsubscribe (exn:=exn) cb (Machine (C_ev false v) w c)
          = (Normal, m)
      ∧ ConcurrentStaticEvent.handles m = Vector.keep cb (Vector.data v)
      ∧ occurrences cb (ConcurrentStaticEvent.handles m) = 0
      ∧ length (ConcurrentStaticEvent.handles m) + k = length (Vector.data v)
      ∧ globals m = w ∧ calls m = c
      ∧ ∀ st m', ConcurrentStaticEvent.invoke code a m = (st, m') →
          ∃ l, calls m' = c ++ with_args a l ∧ cb ∉ l).
Proof.
  intros Hk Hocc.
  assert (cb ∈ Vector.data v) as Hin.
  { destruct (decide (cb ∈ Vector.data v)) as [|Hn]; [done|].
    pose proof (VectorFacts.keep_occurrences (Vector.data v) cb) as Hl.
    rewrite VectorFacts.keep_absent in Hl by done.
    unfold occurrences in Hocc. lia. }
  assert (occurrences cb (Vector.keep cb (Vector.data v)) = 0) as Hz.
  { unfold occurrences.
    pose proof (VectorFacts.keep_occurrences (Vector.keep cb (Vector.data v)) cb) as Hl.
    rewrite VectorFacts.keep_absent in Hl by apply VectorFacts.not_elem_of_keep.
    lia. }
  assert (length (Vector.keep cb (Vector.data v)) + k = length (Vector.data v)) as Hlen.
  { rewrite <- Hocc. apply VectorFacts.keep_occurrences. }
  split.
  - eexists. rewrite static_unsubscribe_eq.
    unfold StaticEvent.handles at 1; simpl. rewrite decide_True by done.
    split_and!; try done.
    intros st m' (l1 & l2 & Hl & Hc & _)%static_invoke_calls.
    exists l1. split; [done|]. unfold StaticEvent.handles in Hl; simpl in Hl.
    intros Hcb. apply (VectorFacts.not_elem_of_keep (Vector.data v) cb).
    rewrite Hl. apply elem_of_app. by left.
  - eexists. rewrite concurrent_unsubscribe_eq by done.
    unfold ConcurrentStaticEvent.handles at 1; simpl. rewrite decide_True by done.
    split_and!; try done.
    intros st m' (l1 & l2 & Hl & Hc & _)%concurrent_invoke_calls; [|done].
    exists l1. split; [done|].
    unfold ConcurrentStaticEvent.handles in Hl; simpl in Hl.
    intros Hcb. apply (VectorFacts.not_elem_of_keep (Vector.data v) cb).
    rewrite Hl. apply elem_of_app. by left.
Qed.

Lemma occurrences_app h (l1 l2 : list callback) :
  occurrences h (l1 ++ l2) = occurrences h l1 + occurrences h l2.
Proof. unfold occurrences. by rewrite filter_app, length_app. Qed.

Lemma occurrences_replicate h k : occurrences h (replicate k h) = k.
Proof.
  unfold occurrences. induction k as [|k IH]; [done|]. simpl.
  rewrite filter_cons_True by done. simpl. by rewrite IH.
Qed.

(** C1. On a registry that starts empty, subscribing [h1, ..., hn] in
    that order leaves exactly that sequence, and an invocation then calls
    exactly those handles, front to back, each with the arguments given,
    the callbacks being functions that return. *)
Theorem subscribe_order_is_call_order (hs : list callback) w a :
  Forall (well_behaved code) hs →
  ∃ m1 m2,
    StaticEvent.run code (Subscribe <$> hs) (Machine StaticEvent.empty w [])
      = (Normal, m1)
    ∧ StaticEvent.handles m1 = hs
    ∧ StaticEvent.invoke code a m1 = (Normal, m2)
    ∧ calls m2 = with_args a hs
    ∧ StaticEvent.handles m2 = hs.
Proof.
  intros Hhs. rewrite static_run_subscribes. eexists. simpl.
  unfold StaticEvent.invoke, StaticEvent.for_each. simpl.
  edestruct (range_for_calm StaticEvent._callbacks StaticEvent.subscribe
               StaticEvent.unsubscribe code hs a) as (m2 & Hr & He & Hc); [done|].
  exists m2. split_and!; [done|done|apply Hr|by rewrite Hc|].
  unfold StaticEvent.handles. by rewrite He.
Qed.

(** C3. [subscribe] never deduplicates: after subscribing [h] [k] times
    the sequence has [k] more occurrences of [h], appended at its end, and
    every later invocation calls [h] that many times. *)
Theorem subscribe_never_deduplicates h k v w c a :
  well_behaved code h →
  Forall (well_behaved code) (Vector.data v) →
  ∃ m1,
    StaticEvent.run code (replicate k (Subscribe h)) (Machine (S_ev v) w c)
      = (Normal, m1)
    ∧ StaticEvent.handles m1 = Vector.data v ++ replicate k h
    ∧ occurrences h (StaticEvent.handles m1) = occurrences h (Vector.data v) + k
    ∧ ∀ w' c', ∃ m2 l,
        StaticEvent.invoke code a (Machine (event m1) w' c') = (Normal, m2)
        ∧ event m2 = event m1
        ∧ calls m2 = c' ++ with_args a l
        ∧ occurrences h l = occurrences h (Vector.data v) + k.
Proof.
  intros Hh Hv. rewrite <- fmap_replicate, static_run_subscribes.
  eexists. split; [done|]. unfold StaticEvent.handles; simpl.
  split; [done|]. rewrite occurrences_app, occurrences_replicate.
  split; [done|]. intros w' c'.
  match goal with |- context [StaticEvent.invoke code a ?m] =>
    destruct (range_for_calm StaticEvent._callbacks StaticEvent.subscribe
                StaticEvent.unsubscribe code (Vector.data v ++ replicate k h) a m)
      as (m2 & Hr & He & Hc)
  end.
  { apply Forall_app. split; [done|]. by apply Forall_replicate. }
  exists m2, (Vector.data v ++ replicate k h).
  split_and!; [apply Hr|apply He|apply Hc|].
  by rewrite occurrences_app, occurrences_replicate.
Qed.

(** C6. A fault raised by a callback is not caught by the registry, in
    either class: when the callbacks before [cb] have returned and [cb]
    throws [e], the invocation itself ends with [e], in the very state
    in which [cb] threw (the concurrent class releasing its mutex on the
    way out); [cb] was called once, and none of the callbacks after it was
    called. *)
Theorem callback_fault_propagates pre cb post e v w c a :
  Vector.data v = pre ++ cb :: post →
  (∀ m1 m2,
     StaticEvent.for_each code pre a (Machine (S_ev v) w c) = (Normal, m1) →
     StaticEvent.call code cb a m1 = (Thrown e, m2) →
     StaticEvent.invoke code a (Machine (S_ev v) w c) = (Thrown e, m2)
     ∧ calls m2 = c ++ with_args a (pre ++ [cb]))
  ∧ (∀ m1 m2,
     ConcurrentStaticEvent.for_each code pre a (Machine (C_ev true v) w c)
       = (Normal, m1) →
     ConcurrentStaticEvent.call code cb a m1 = (Thrown e, m2) →
     ConcurrentStaticEvent.invoke code a (Machine (C_ev false v) w c)
       = (Thrown e, ConcurrentStaticEvent.set_mutex false m2)
     ∧ calls m2 = c ++ with_args a (pre ++ [cb])).
Proof.
  intros Hv. split; intros m1 m2 Hpre Hcb.
  - unfold StaticEvent.invoke; simpl. rewrite Hv, static_for_each_app, Hpre.
    unfold StaticEvent.for_each; simpl. fold (StaticEvent.call code cb a m1).
    rewrite Hcb. split; [done|].
    apply (range_for_calls StaticEvent._callbacks StaticEvent.subscribe
             StaticEvent.unsubscribe code) in Hpre
      as (l1 & l2 & Hl & Hc & Hn);
      auto using static_subscribe_preserves, static_unsubscribe_preserves.
    destruct (Hn eq_refl) as [-> _]. rewrite app_nil_r in Hl. subst l1.
    apply (call_frame StaticEvent._callbacks) in Hcb as (Hc2 & _);
      auto using static_subscribe_preserves, static_unsubscribe_preserves.
    rewrite Hc2, Hc. unfold with_args. rewrite fmap_app. simpl.
    by rewrite <- app_assoc.
  - rewrite concurrent_invoke_eq by done.
    unfold ConcurrentStaticEvent.handles; simpl.
    change (ConcurrentStaticEvent.set_mutex true (Machine (C_ev false v) w c))
      with (Machine (C_ev true v) w c).
    rewrite Hv, concurrent_for_each_app, Hpre.
    unfold ConcurrentStaticEvent.for_each; simpl.
    fold (ConcurrentStaticEvent.call code cb a m1).
    rewrite Hcb. split; [done|].
    apply (range_for_calls ConcurrentStaticEvent._callbacks
             ConcurrentStaticEvent.subscribe
             ConcurrentStaticEvent.unsubscribe code) in Hpre
      as (l1 & l2 & Hl & Hc & Hn);
      auto using concurrent_subscribe_preserves, concurrent_unsubscribe_preserves.
    destruct (Hn eq_refl) as [-> _]. rewrite app_nil_r in Hl. subst l1.
    apply (call_frame ConcurrentStaticEvent._callbacks) in Hcb as (Hc2 & _);
      auto using concurrent_subscribe_preserves, concurrent_unsubscribe_preserves.
    rewrite Hc2, Hc. unfold with_args. rewrite fmap_app. simpl.
    by rewrite <- app_assoc.
Qed.

(** C9. An invocation whose callbacks do not subscribe to or unsubscribe
    from the registry leaves the sequence of handles exactly as it was, in
    both classes, for every argument list and however the invocation
    ends. *)
Theorem invoke_leaves_sequence_unchanged v w c a :
  Forall (non_reentrant code) (Vector.data v) →
  StaticEvent.handles (StaticEvent.invoke code a (Machine (S_ev v) w c)).2
    = Vector.data v
  ∧ ConcurrentStaticEvent.handles
      (ConcurrentStaticEvent.invoke code a (Machine (C_ev false v) w c)).2
    = Vector.data v.
Proof.
  intros Hv. split.
  - unfold StaticEvent.invoke, StaticEvent.for_each; simpl.
    destruct (range_for _ _ _ _ _ _ _ _) as [st m'] eqn:Hr.
    pose proof (range_for_quiet StaticEvent._callbacks _ _ code _ a
                  (Machine (S_ev v) w c) st m' Hv Hr) as He.
    unfold StaticEvent.handles. simpl. by rewrite He.
  - rewrite concurrent_invoke_eq by done.
    unfold ConcurrentStaticEvent.for_each, ConcurrentStaticEvent.handles; simpl.
    destruct (range_for _ _ _ _ _ _ _ _) as [st m'] eqn:Hr.
    pose proof (range_for_quiet ConcurrentStaticEvent._callbacks _ _ code _ a
                  (Machine (C_ev true v) w c) st m' Hv Hr) as He.
    destruct st; simpl; by rewrite He.
Qed.

(** C10. No operator checks a handle: [subscribe] appends a null handle
    like any other, in both classes, and an invocation that reaches it
    calls through it, which is undefined behaviour. *)
Theorem null_handle_is_not_checked v w c a :
  Forall (well_behaved code) (Vector.data v) →
  (∃ m m',
     StaticEvent.subscribe (exn:=exn) nullptr (Machine (S_ev v) w c) = (Normal, m)
     ∧ StaticEvent.handles m = Vector.data v ++ [nullptr]
     ∧ StaticEvent.invoke code a m = (Undefined, m')
     ∧ calls m' = c ++ with_args a (Vector.data v ++ [nullptr]))
  ∧ (∃ m m',
     ConcurrentStaticEvent.subscribe (exn:=exn) nullptr (Machine (C_ev false v) w c)
       = (Normal, m)
     ∧ ConcurrentStaticEvent.handles m = Vector.data v ++ [nullptr]
     ∧ ConcurrentStaticEvent.invoke code a m = (Undefined, m')
     ∧ calls m' = c ++ with_args a (Vector.data v ++ [nullptr])).
Proof.
  intros Hv. split.
  - set (m := set_event (S_ev (Vector.push_back nullptr v))
                (Machine (S_ev v) w c)).
    destruct (range_for_calm StaticEvent._callbacks StaticEvent.subscribe
                StaticEvent.unsubscribe code (Vector.data v) a m Hv)
      as (m1 & Hr & He & Hc).
    exists m, (record_call nullptr a m1).
    split; [apply static_subscribe_eq|]. split; [done|]. split.
    + unfold StaticEvent.invoke; simpl. rewrite static_for_each_app.
      unfold StaticEvent.for_each; simpl. simpl in Hr. by rewrite Hr.
    + simpl. rewrite Hc. unfold with_args. rewrite fmap_app. simpl.
      by rewrite <- app_assoc.
  - set (m := ConcurrentStaticEvent.set_callbacks (Vector.push_back nullptr v)
                (Machine (C_ev false v) w c)).
    destruct (range_for_calm ConcurrentStaticEvent._callbacks
                ConcurrentStaticEvent.subscribe
                ConcurrentStaticEvent.unsubscribe code (Vector.data v) a
                (ConcurrentStaticEvent.set_mutex true m) Hv)
      as (m1 & Hr & He & Hc).
    exists m, (record_call nullptr a m1).
    split; [by apply concurrent_subscribe_eq|]. split; [done|]. split.
    + rewrite concurrent_invoke_eq by done.
      unfold ConcurrentStaticEvent.handles; simpl.
      rewrite concurrent_for_each_app.
      unfold ConcurrentStaticEvent.for_each; simpl. simpl in Hr. by rewrite Hr.
    + simpl. rewrite Hc. unfold with_args. rewrite fmap_app. simpl.
      by rewrite <- app_assoc.
Qed.

(** C7. The two classes have the same contract: performed one after
    another on the same sequence, with callbacks that do not call back
    into the registry (so that no operation starts inside another), the
    same operations end in the same way and leave the same sequence of
    handles, the same calls made and the same globals. *)
Theorem classes_agree (ops : list (op Args)) v w c :
  (∀ cb, non_reentrant code cb) →
  let rs := StaticEvent.run code ops (Machine (S_ev v) w c) in
  let rc := ConcurrentStaticEvent.run code ops (Machine (C_ev false v) w c) in
  rc.1 = rs.1
  ∧ ConcurrentStaticEvent.handles rc.2 = StaticEvent.handles rs.2
  ∧ calls rc.2 = calls rs.2
  ∧ globals rc.2 = globals rs.2.
Proof.
  intros Hcode rs rc.
  destruct (run_agree code Hcode ops (Machine (S_ev v) w c)) as [b Hb].
  change (map_event (as_concurrent false) (Machine (S_ev v) w c))
    with (Machine (Args:=Args) (C_ev false v) w c) in Hb.
  subst rs rc. by rewrite Hb.
Qed.
End Contract.

(** ** Instances at the fixture *)

Lemma unsubscribe_absent_is_noop_witness :
  (Fixture.callback1 ∉ [Fixture.callback2])
  ∧ StaticEvent.unsubscribe (exn:=Fixture.fault) Fixture.callback1
      (Machine (StaticEvent.Build (Vector.Build [Fixture.callback2] 1))
         Fixture.start ([] : list (callback * Z)))
    = (Normal, Machine (StaticEvent.Build (Vector.Build [Fixture.callback2] 1))
                 Fixture.start []).
Proof.
  assert (Fixture.callback1 ∉ [Fixture.callback2]) as H.
  { apply not_elem_of_cons. split; [discriminate|apply not_elem_of_nil]. }
  split; [exact H|].
  exact (proj1 (unsubscribe_absent_is_noop Fixture.callback1
                  (Vector.Build [Fixture.callback2] 1) Fixture.start [] H)).
Defined.

Lemma unsubscribe_removes_all_occurrences_witness :
  1 ≤ 2
  ∧ occurrences Fixture.callback1
      [Fixture.callback1; Fixture.callback2; Fixture.callback1] = 2
  ∧ ∃ m, StaticEvent.unsubscribe (exn:=Fixture.fault) Fixture.callback1
           (Machine (StaticEvent.Build
                       (Vector.Build [Fixture.callback1; Fixture.callback2;
                                      Fixture.callback1] 3))
              Fixture.start ([] : list (callback * Z)))
         = (Normal, m)
       ∧ StaticEvent.handles m = [Fixture.callback2].
Proof.
  split; [lia|]. split; [reflexivity|].
  destruct (unsubscribe_removes_all_occurrences Fixture.code Fixture.callback1 2
              (Vector.Build [Fixture.callback1; Fixture.callback2;
                             Fixture.callback1] 3)
              Fixture.start [] 7%Z ltac:(lia) eq_refl)
    as [(m & Hm & Hh & _) _].
  exists m. split; [exact Hm|exact Hh].
Defined.

Lemma subscribe_order_is_call_order_witness :
  Forall (well_behaved Fixture.code) [Fixture.callback1; Fixture.callback2]
  ∧ ∃ m1 m2,
      StaticEvent.run Fixture.code
        [Subscribe Fixture.callback1; Subscribe Fixture.callback2] Fixture.fresh
      = (Normal, m1)
      ∧ StaticEvent.invoke Fixture.code 42%Z m1 = (Normal, m2)
      ∧ calls m2 = [(Fixture.callback1, 42%Z); (Fixture.callback2, 42%Z)].
Proof.
  assert (Forall (well_behaved Fixture.code)
            [Fixture.callback1; Fixture.callback2]) as H.
  { apply List.Forall_cons; [apply callback1_well_behaved|].
    apply List.Forall_cons; [apply callback2_well_behaved|apply List.Forall_nil]. }
  split; [exact H|].
  destruct (subscribe_order_is_call_order Fixture.code
              [Fixture.callback1; Fixture.callback2] Fixture.start 42%Z H)
    as (m1 & m2 & H1 & _ & H2 & H3 & _).
  exists m1, m2. split; [exact H1|]. split; [exact H2|exact H3].
Defined.

Lemma subscribe_never_deduplicates_witness :
  well_behaved Fixture.code Fixture.callback1
  ∧ Forall (well_behaved Fixture.code) []
  ∧ ∃ m1,
      StaticEvent.run Fixture.code
        [Subscribe Fixture.callback1; Subscribe Fixture.callback1] Fixture.fresh
      = (Normal, m1)
      ∧ StaticEvent.handles m1 = [Fixture.callback1; Fixture.callback1].
Proof.
  split; [apply callback1_well_behaved|]. split; [apply List.Forall_nil|].
  destruct (subscribe_never_deduplicates Fixture.code Fixture.callback1 2
              Vector.empty Fixture.start [] 10%Z callback1_well_behaved
              (List.Forall_nil _))
    as (m1 & H1 & H2 & _).
  exists m1. split; [exact H1|exact H2].
Defined.

Lemma callback_fault_propagates_witness :
  let v := Vector.Build [Fixture.callback1; Fixture.faulty; Fixture.callback2] 3 in
  let ms := Machine (StaticEvent.Build v) Fixture.start [] in
  let mc b := Machine (ConcurrentStaticEvent.Build b v) Fixture.start [] in
  Vector.data v = [Fixture.callback1] ++ Fixture.faulty :: [Fixture.callback2]
  ∧ (∃ m1 m2,
       StaticEvent.for_each Fixture.code [Fixture.callback1] 5%Z ms = (Normal, m1)
       ∧ StaticEvent.call Fixture.code Fixture.faulty 5%Z m1
         = (Thrown Fixture.Boom, m2)
       ∧ StaticEvent.invoke Fixture.code 5%Z ms = (Thrown Fixture.Boom, m2)
       ∧ calls m2 = [(Fixture.callback1, 5%Z); (Fixture.faulty, 5%Z)])
  ∧ (∃ m1 m2,
       ConcurrentStaticEvent.for_each Fixture.code [Fixture.callback1] 5%Z
         (mc true) = (Normal, m1)
       ∧ ConcurrentStaticEvent.call Fixture.code Fixture.faulty 5%Z m1
         = (Thrown Fixture.Boom, m2)
       ∧ ConcurrentStaticEvent.invoke Fixture.code 5%Z (mc false)
         = (Thrown Fixture.Boom, ConcurrentStaticEvent.set_mutex false m2)
       ∧ calls m2 = [(Fixture.callback1, 5%Z); (Fixture.faulty, 5%Z)]).
Proof.
  intros v ms mc.
  destruct (callback_fault_propagates Fixture.code
              [Fixture.callback1] Fixture.faulty [Fixture.callback2] Fixture.Boom
              v Fixture.start [] 5%Z eq_refl) as [Hs Hc].
  split; [reflexivity|]. split.
  - exists (StaticEvent.for_each Fixture.code [Fixture.callback1] 5%Z ms).2.
    eexists. split; [reflexivity|]. split; [reflexivity|].
    exact (Hs _ _ eq_refl eq_refl).
  - exists (ConcurrentStaticEvent.for_each Fixture.code [Fixture.callback1] 5%Z
              (mc true)).2.
    eexists. split; [reflexivity|]. split; [reflexivity|].
    exact (Hc _ _ eq_refl eq_refl).
Defined.

Lemma invoke_leaves_sequence_unchanged_witness :
  Forall (non_reentrant Fixture.code)
    [Fixture.callback1; Fixture.faulty; Fixture.callback2]
  ∧ StaticEvent.handles
      (StaticEvent.invoke Fixture.code 5%Z
         (Machine (StaticEvent.Build
                     (Vector.Build [Fixture.callback1; Fixture.faulty;
                                    Fixture.callback2] 3))
            Fixture.start [])).2
    = [Fixture.callback1; Fixture.faulty; Fixture.callback2].
Proof.
  assert (Forall (non_reentrant Fixture.code)
            [Fixture.callback1; Fixture.faulty; Fixture.callback2]) as H.
  { apply Forall_forall. intros cb _. apply fixture_non_reentrant. }
  split; [exact H|].
  exact (proj1 (invoke_leaves_sequence_unchanged Fixture.code
                  (Vector.Build [Fixture.callback1; Fixture.faulty;
                                 Fixture.callback2] 3)
                  Fixture.start [] 5%Z H)).
Defined.

Lemma null_handle_is_not_checked_witness :
  Forall (well_behaved Fixture.code) [Fixture.callback1]
  ∧ ∃ m m',
      StaticEvent.subscribe (exn:=Fixture.fault) nullptr
        (Machine (StaticEvent.Build (Vector.Build [Fixture.callback1] 1))
           Fixture.start ([] : list (callback * Z)))
      = (Normal, m)
      ∧ StaticEvent.invoke Fixture.code 5%Z m = (Undefined, m')
      ∧ calls m' = [(Fixture.callback1, 5%Z); (nullptr, 5%Z)].
Proof.
  assert (Forall (well_behaved Fixture.code) [Fixture.callback1]) as H.
  { apply List.Forall_cons; [apply callback1_well_behaved|apply List.Forall_nil]. }
  split; [exact H|].
  destruct (null_handle_is_not_checked Fixture.code
              (Vector.Build [Fixture.callback1] 1) Fixture.start [] 5%Z H)
    as [(m & m' & H1 & _ & H2 & H3) _].
  exists m, m'. split; [exact H1|]. split; [exact H2|exact H3].
Defined.

Lemma classes_agree_witness :
  (∀ cb, non_reentrant Fixture.code cb)
  ∧ (ConcurrentStaticEvent.run Fixture.code
       [Subscribe Fixture.callback1; Subscribe Fixture.callback2;
        Unsubscribe Fixture.callback1; Invoke 7%Z]
       Fixture.fresh_concurrent).1
    = (StaticEvent.run Fixture.code
         [Subscribe Fixture.callback1; Subscribe Fixture.callback2;
          Unsubscribe Fixture.callback1; Invoke 7%Z]
         Fixture.fresh).1.
Proof.
  split; [exact fixture_non_reentrant|].
  exact (proj1 (classes_agree Fixture.code
                  [Subscribe Fixture.callback1; Subscribe Fixture.callback2;
                   Unsubscribe Fixture.callback1; Invoke 7%Z]
                  Vector.empty Fixture.start [] fixture_non_reentrant)).
Defined.

(** * Further properties of the registry *)

Section Registry.
Context {Args W exn : Type}.
Variable code : nat → Args → W → list (action W exn).
Implicit Types (v : Vector.vector callback) (w : W) (a : Args).
Implicit Types (c : list (callback * Args)) (cb h : callback).

Local Abbreviation S_ev := StaticEvent.Build.
Local Abbreviation C_ev := ConcurrentStaticEvent.Build.

Lemma keep_keep_same (l : list callback) cb :
  Vector.keep cb (Vector.keep cb l) = Vector.keep cb l.
Proof. apply VectorFacts.keep_absent, VectorFacts.not_elem_of_keep. Qed.

Lemma keep_app (l1 l2 : list callback) cb :
  Vector.keep cb (l1 ++ l2) = Vector.keep cb l1 ++ Vector.keep cb l2.
Proof. unfold Vector.keep. apply filter_app. Qed.

Lemma keep_comm (l : list callback) cb1 cb2 :
  Vector.keep cb1 (Vector.keep cb2 l) = Vector.keep cb2 (Vector.keep cb1 l).
Proof.
  unfold Vector.keep. rewrite !list_filter_filter.
  apply list_filter_iff. intros x. tauto.
Qed.

Lemma occurrences_keep_ne (l : list callback) cb h :
  h ≠ cb → occurrences h (Vector.keep cb l) = occurrences h l.
Proof.
  intros Hne. unfold occurrences, Vector.keep. rewrite list_filter_filter.
  f_equal. apply list_filter_iff. intros x. split; [tauto|].
  intros ->. done.
Qed.

Lemma static_unsubscribe_handles cb (m : machine Args W StaticEvent.static_event) :
  StaticEvent.handles (StaticEvent.unsubscribe (exn:=exn) cb m).2
  = Vector.keep cb (StaticEvent.handles m).
Proof.
  rewrite static_unsubscribe_eq. simpl. case_decide; [done|].
  by rewrite VectorFacts.keep_absent.
Qed.

Lemma concurrent_unsubscribe_handles cb
    (m : machine Args W ConcurrentStaticEvent.concurrent_static_event) :
  ConcurrentStaticEvent._mutex (event m) = false →
  ConcurrentStaticEvent.handles (ConcurrentStaticEvent.unsubscribe (exn:=exn) cb m).2
  = Vector.keep cb (ConcurrentStaticEvent.handles m)
  ∧ ConcurrentStaticEvent._mutex
      (event (ConcurrentStaticEvent.unsubscribe (exn:=exn) cb m).2) = false.
Proof.
  intros Hm. rewrite concurrent_unsubscribe_eq by done. simpl.
  case_decide; [done|]. by rewrite VectorFacts.keep_absent.
Qed.

Lemma static_unsubscribe_normal cb (m : machine Args W StaticEvent.static_event) :
  (StaticEvent.unsubscribe (exn:=exn) cb m).1 = Normal.
Proof. by rewrite static_unsubscribe_eq. Qed.

Lemma concurrent_unsubscribe_normal cb
    (m : machine Args W ConcurrentStaticEvent.concurrent_static_event) :
  ConcurrentStaticEvent._mutex (event m) = false →
  (ConcurrentStaticEvent.unsubscribe (exn:=exn) cb m).1 = Normal.
Proof. intros Hm. by rewrite concurrent_unsubscribe_eq. Qed.

(** X1. Unsubscribing is idempotent in both classes: a second
    [unsubscribe] of the same handle returns normally and leaves the state
    reached by the first exactly as it is, iterators included. *)
Theorem unsubscribe_idempotent cb v w c :
  let rs := StaticEvent.unsubscribe (exn:=exn) cb (Machine (S_ev v) w c) in
  let rc := ConcurrentStaticEvent.unsubscribe (exn:=exn) cb
              (Machine (C_ev false v) w c) in
  StaticEvent.unsubscribe cb rs.2 = rs
  ∧ ConcurrentStaticEvent.unsubscribe cb rc.2 = rc.
Proof.
  intros rs rc. split.
  - subst rs. rewrite (static_unsubscribe_eq cb (Machine (S_ev v) w c)).
    cbn [snd]. rewrite static_unsubscribe_eq.
    rewrite decide_False; [done|].
    unfold StaticEvent.handles. simpl. case_decide; simpl; [|done].
    apply VectorFacts.not_elem_of_keep.
  - subst rc.
    rewrite (concurrent_unsubscribe_eq cb (Machine (C_ev false v) w c)) by done.
    cbn [snd]. rewrite concurrent_unsubscribe_eq by (by case_decide).
    rewrite decide_False; [done|].
    unfold ConcurrentStaticEvent.handles. simpl. case_decide; simpl; [|done].
    apply VectorFacts.not_elem_of_keep.
Qed.

(** X2. Subscribing a handle that is not in the sequence and then
    unsubscribing it gives back the sequence as it was, in both classes. *)
Theorem subscribe_unsubscribe_restores_sequence cb v w c :
  cb ∉ Vector.data v →
  let rs := StaticEvent.run code [Subscribe cb; Unsubscribe cb]
              (Machine (S_ev v) w c) in
  let rc := ConcurrentStaticEvent.run code [Subscribe cb; Unsubscribe cb]
              (Machine (C_ev false v) w c) in
  (rs.1 = Normal ∧ StaticEvent.handles rs.2 = Vector.data v)
  ∧ (rc.1 = Normal ∧ ConcurrentStaticEvent.handles rc.2 = Vector.data v).
Proof.
  intros Hn rs rc.
  assert (Vector.keep cb (Vector.data v ++ [cb]) = Vector.data v) as Hk.
  { rewrite keep_app, VectorFacts.keep_absent by done.
    rewrite VectorFacts.keep_cons_eq. apply app_nil_r. }
  split.
  - subst rs. simpl. rewrite static_unsubscribe_eq. simpl.
    unfold StaticEvent.handles; simpl.
    rewrite decide_True by (apply elem_of_app; right; apply list_elem_of_here).
    by rewrite Hk.
  - subst rc. cbn [ConcurrentStaticEvent.run ConcurrentStaticEvent.step].
    rewrite concurrent_subscribe_eq by done.
    rewrite concurrent_unsubscribe_eq by done. simpl.
    unfold ConcurrentStaticEvent.handles; simpl.
    rewrite decide_True by (apply elem_of_app; right; apply list_elem_of_here).
    by rewrite Hk.
Qed.

(** X3. [unsubscribe cb] does not touch the other handles: every handle
    different from [cb] occurs as often afterwards as before, in both
    classes. *)
Theorem unsubscribe_keeps_other_handles cb h v w c :
  h ≠ cb →
  occurrences h
    (StaticEvent.handles
       (StaticEvent.unsubscribe (exn:=exn) cb (Machine (S_ev v) w c)).2)
  = occurrences h (Vector.data v)
  ∧ occurrences h
      (ConcurrentStaticEvent.handles
         (ConcurrentStaticEvent.unsubscribe (exn:=exn) cb
            (Machine (C_ev false v) w c)).2)
    = occurrences h (Vector.data v).
Proof.
  intros Hne. rewrite static_unsubscribe_handles.
  destruct (concurrent_unsubscribe_handles cb (Machine (C_ev false v) w c))
    as [-> _]; [done|].
  unfold StaticEvent.handles, ConcurrentStaticEvent.handles. simpl.
  by rewrite occurrences_keep_ne.
Qed.

(** X4. Unsubscribing two handles gives the same sequence in either
    order, in both classes. *)
Theorem unsubscribes_commute cb1 cb2 v w c :
  StaticEvent.handles
    (StaticEvent.run code [Unsubscribe cb1; Unsubscribe cb2] (Machine (S_ev v) w c)).2
  = StaticEvent.handles
      (StaticEvent.run code [Unsubscribe cb2; Unsubscribe cb1] (Machine (S_ev v) w c)).2
  ∧ ConcurrentStaticEvent.handles
      (ConcurrentStaticEvent.run code [Unsubscribe cb1; Unsubscribe cb2]
         (Machine (C_ev false v) w c)).2
    = ConcurrentStaticEvent.handles
        (ConcurrentStaticEvent.run code [Unsubscribe cb2; Unsubscribe cb1]
           (Machine (C_ev false v) w c)).2.
Proof.
  assert (∀ x y, StaticEvent.handles
            (StaticEvent.run code [Unsubscribe x; Unsubscribe y]
               (Machine (S_ev v) w c)).2
          = Vector.keep y (Vector.keep x (Vector.data v))) as Hs.
  { intros x y. cbn [StaticEvent.run StaticEvent.step].
    pose proof (static_unsubscribe_handles x (Machine (S_ev v) w c)) as H1.
    pose proof (static_unsubscribe_normal x (Machine (S_ev v) w c)) as N1.
    destruct (StaticEvent.unsubscribe x _) as [s1 m1]. simpl in H1, N1. subst s1.
    pose proof (static_unsubscribe_handles y m1) as H2.
    pose proof (static_unsubscribe_normal y m1) as N2.
    destruct (StaticEvent.unsubscribe y _) as [s2 m2]. simpl in H2, N2. subst s2.
    simpl. by rewrite H2, H1. }
  assert (∀ x y, ConcurrentStaticEvent.handles
            (ConcurrentStaticEvent.run code [Unsubscribe x; Unsubscribe y]
               (Machine (C_ev false v) w c)).2
          = Vector.keep y (Vector.keep x (Vector.data v))) as Hc.
  { intros x y. cbn [ConcurrentStaticEvent.run ConcurrentStaticEvent.step].
    destruct (concurrent_unsubscribe_handles x (Machine (C_ev false v) w c))
      as [H1 M1]; [done|].
    pose proof (concurrent_unsubscribe_normal x (Machine (C_ev false v) w c)
                  eq_refl) as N1.
    destruct (ConcurrentStaticEvent.unsubscribe x _) as [s1 m1].
    simpl in H1, M1, N1. subst s1.
    destruct (concurrent_unsubscribe_handles y m1) as [H2 _]; [done|].
    pose proof (concurrent_unsubscribe_normal y m1 M1) as N2.
    destruct (ConcurrentStaticEvent.unsubscribe y _) as [s2 m2].
    simpl in H2, N2. subst s2.
    simpl. by rewrite H2, H1. }
  rewrite !Hs, !Hc. split; apply keep_comm.
Qed.



Lemma concurrent_run_actions_blocks (ups : list (action W exn)) act rest
    (m : machine Args W ConcurrentStaticEvent.concurrent_static_event) :
  ConcurrentStaticEvent._mutex (event m) = true →
  calm ups = true →
  reenters act = true →
  run_actions ConcurrentStaticEvent.subscribe ConcurrentStaticEvent.unsubscribe
    (ups ++ act :: rest) m
  = (Deadlock, set_globals (effect ups (globals m)).2 m).
Proof.
  intros Hm Hups Hact. revert m Hm.
  induction ups as [|[g|cb|cb|e] ups IH]; intros m Hm; simpl in *; try done.
  - destruct act as [g|cb|cb|e]; try done.
    + rewrite concurrent_subscribe_locked by done. by destruct m.
    + rewrite concurrent_unsubscribe_locked by done. by destruct m.
  - by rewrite IH.
Qed.

(** X7. In [concurrent_static_event], a callback that reaches a [+=] or
    [-=] on the event that is calling it blocks for ever: the invocation
    never returns, the mutex stays owned, and no later handle is
    called. *)
Theorem concurrent_reentry_deadlocks pre f post ups act rest v w c a m1 :
  Vector.data v = pre ++ fnptr f :: post →
  ConcurrentStaticEvent.for_each code pre a (Machine (C_ev true v) w c)
    = (Normal, m1) →
  code f a (globals m1) = ups ++ act :: rest →
  calm ups = true →
  reenters act = true →
  ∃ m2,
    ConcurrentStaticEvent.invoke code a (Machine (C_ev false v) w c)
      = (Deadlock, m2)
    ∧ calls m2 = c ++ with_args a (pre ++ [fnptr f])
    ∧ ConcurrentStaticEvent._mutex (event m2) = true.
Proof.
  intros Hv Hpre Hcode Hups Hact.
  pose proof Hpre as Hpre'.
  apply (range_for_calls ConcurrentStaticEvent._callbacks
           ConcurrentStaticEvent.subscribe
           ConcurrentStaticEvent.unsubscribe code) in Hpre'
    as (l1 & l2 & Hl & Hc & Hn);
    auto using concurrent_subscribe_preserves, concurrent_unsubscribe_preserves.
  destruct (Hn eq_refl) as [-> He]. rewrite app_nil_r in Hl. subst l1.
  simpl in He, Hc.
  set (m2 := set_globals (effect ups (globals m1)).2 (record_call (fnptr f) a m1)).
  assert (ConcurrentStaticEvent._mutex (event m2) = true) as Hm2.
  { subst m2. simpl. by rewrite He. }
  assert (run_actions ConcurrentStaticEvent.subscribe
            ConcurrentStaticEvent.unsubscribe (ups ++ act :: rest)
            (record_call (fnptr f) a m1) = (Deadlock, m2)) as Hrun.
  { apply concurrent_run_actions_blocks; [by simpl; rewrite He|done|done]. }
  exists m2. split_and!; [|by subst m2; simpl; rewrite Hc; unfold with_args;
                           rewrite fmap_app; simpl; rewrite <- app_assoc|done].
  rewrite concurrent_invoke_eq by done.
  unfold ConcurrentStaticEvent.handles; simpl.
  change (ConcurrentStaticEvent.set_mutex true (Machine (C_ev false v) w c))
    with (Machine (Args:=Args) (C_ev true v) w c).
  rewrite Hv, concurrent_for_each_app, Hpre.
  unfold ConcurrentStaticEvent.for_each; simpl.
  rewrite Hcode, Hrun. done.
Qed.

Lemma lock_guard_releases rest
    (m m' : machine Args W ConcurrentStaticEvent.concurrent_static_event)
    (st : status exn) :
  ConcurrentStaticEvent.lock_guard rest m = (st, m') →
  st = Normal ∨ (∃ e, st = Thrown e) →
  ConcurrentStaticEvent._mutex (event m') = false.
Proof.
  unfold ConcurrentStaticEvent.lock_guard.
  destruct (ConcurrentStaticEvent._mutex (event m)).
  - intros [= <- <-] Hst. by destruct Hst as [?|[x ?]].
  - destruct (rest _) as [[] m1]; intros [= <- <-] Hst;
      destruct Hst as [?|[x ?]]; done.
Qed.

Lemma concurrent_run_releases (ops : list (op Args))
    (m : machine Args W ConcurrentStaticEvent.concurrent_static_event) :
  ConcurrentStaticEvent._mutex (event m) = false →
  (ConcurrentStaticEvent.run code ops m).1 = Normal
  ∨ (∃ e, (ConcurrentStaticEvent.run code ops m).1 = Thrown e) →
  ConcurrentStaticEvent._mutex (event (ConcurrentStaticEvent.run code ops m).2)
  = false.
Proof.
  revert m. induction ops as [|o ops IH]; intros m Hm; simpl; [done|].
  destruct (ConcurrentStaticEvent.step code o m) as [st m'] eqn:Hs.
  assert (st = Normal ∨ (∃ e, st = Thrown e) →
          ConcurrentStaticEvent._mutex (event m') = false) as Hrel.
  { destruct o; simpl in Hs; by eapply lock_guard_releases. }
  destruct st; simpl; auto.
Qed.

(** X8. From a state in which the mutex is free, every list of
    operations on a [concurrent_static_event] that returns, or that is
    left by an exception of a callback, ends with the mutex free again. *)
Theorem concurrent_operations_release_mutex (ops : list (op Args)) v w c :
  let r := ConcurrentStaticEvent.run code ops (Machine (C_ev false v) w c) in
  r.1 = Normal ∨ (∃ e, r.1 = Thrown e) →
  ConcurrentStaticEvent._mutex (event r.2) = false.
Proof. intros r. by apply concurrent_run_releases. Qed.

(** X9. [TestCaller::reset()] gives every test a clean registry: whatever
    was subscribed before, after [reset()] and the subscription of
    [h1, ..., hn], [trigger_event] calls exactly [h1, ..., hn], in order
    (the callbacks being functions that return). *)
Theorem reset_forgets_earlier_subscriptions (hs : list callback) v w c a :
  Forall (well_behaved code) hs →
  ∃ m1 m2,
    StaticEvent.run code (Subscribe <$> hs)
      (TestCaller.reset (Machine (S_ev v) w c)) = (Normal, m1)
    ∧ StaticEvent.handles m1 = hs
    ∧ TestCaller.trigger_event code a m1 = (Normal, m2)
    ∧ calls m2 = c ++ with_args a hs.
Proof.
  intros Hhs. rewrite static_run_subscribes. eexists. simpl.
  unfold TestCaller.trigger_event, StaticEvent.invoke, StaticEvent.for_each. simpl.
  edestruct (range_for_calm StaticEvent._callbacks StaticEvent.subscribe
               StaticEvent.unsubscribe code hs a) as (m2 & Hr & He & Hc); [done|].
  exists m2. split_and!; [done|done|apply Hr|by rewrite Hc].
Qed.
End Registry.

(** ** Instances at the fixture *)

Lemma subscribe_unsubscribe_restores_sequence_witness :
  (Fixture.callback1 ∉ [Fixture.callback2])
  ∧ StaticEvent.handles
      (StaticEvent.run Fixture.code
         [Subscribe Fixture.callback1; Unsubscribe Fixture.callback1]
         (Machine (StaticEvent.Build (Vector.Build [Fixture.callback2] 1))
            Fixture.start [])).2
    = [Fixture.callback2].
Proof.
  assert (Fixture.callback1 ∉ [Fixture.callback2]) as H.
  { apply not_elem_of_cons. split; [discriminate|apply not_elem_of_nil]. }
  split; [exact H|].
  exact (proj2 (proj1 (subscribe_unsubscribe_restores_sequence Fixture.code
                         Fixture.callback1 (Vector.Build [Fixture.callback2] 1)
                         Fixture.start [] H))).
Defined.

Lemma unsubscribe_keeps_other_handles_witness :
  Fixture.callback2 ≠ Fixture.callback1
  ∧ occurrences Fixture.callback2
      (StaticEvent.handles
         (StaticEvent.unsubscribe (exn:=Fixture.fault) Fixture.callback1
            (Machine (StaticEvent.Build
                        (Vector.Build [Fixture.callback1; Fixture.callback2;
                                       Fixture.callback1] 3))
               Fixture.start ([] : list (callback * Z)))).2)
    = 1.
Proof.
  assert (Fixture.callback2 ≠ Fixture.callback1) as H by discriminate.
  split; [exact H|].
  exact (proj1 (unsubscribe_keeps_other_handles (exn:=Fixture.fault)
                  Fixture.callback1 Fixture.callback2
                  (Vector.Build [Fixture.callback1; Fixture.callback2;
                                 Fixture.callback1] 3)
                  Fixture.start ([] : list (callback * Z)) H)).
Defined.



Lemma concurrent_reentry_deadlocks_witness :
  let v := Vector.Build [Fixture.callback1; Fixture.meddler; Fixture.callback2] 3 in
  reenters (W:=Fixture.tracker) (exn:=Fixture.fault) (Unsub Fixture.callback2) = true
  ∧ ∃ m2,
      ConcurrentStaticEvent.invoke Fixture.code_with_meddler 5%Z
        (Machine (ConcurrentStaticEvent.Build false v) Fixture.start [])
      = (Deadlock, m2)
      ∧ calls m2 = [(Fixture.callback1, 5%Z); (Fixture.meddler, 5%Z)]
      ∧ ConcurrentStaticEvent._mutex (event m2) = true.
Proof.
  intros v. split; [reflexivity|].
  exact (concurrent_reentry_deadlocks Fixture.code_with_meddler
           [Fixture.callback1] 4 [Fixture.callback2]
           [] (Unsub Fixture.callback2) []
           v Fixture.start [] 5%Z
           (ConcurrentStaticEvent.for_each Fixture.code_with_meddler
              [Fixture.callback1] 5%Z
              (Machine (ConcurrentStaticEvent.Build true v) Fixture.start [])).2
           eq_refl eq_refl eq_refl eq_refl eq_refl).
Defined.

Lemma concurrent_operations_release_mutex_witness :
  let r := ConcurrentStaticEvent.run Fixture.code
             [Subscribe Fixture.callback1; Subscribe Fixture.faulty; Invoke 7%Z]
             Fixture.fresh_concurrent in
  r.1 = Thrown Fixture.Boom
  ∧ ConcurrentStaticEvent._mutex (event r.2) = false.
Proof.
  intros r. split; [reflexivity|].
  exact (concurrent_operations_release_mutex Fixture.code
           [Subscribe Fixture.callback1; Subscribe Fixture.faulty; Invoke 7%Z]
           Vector.empty Fixture.start []
           (or_intror (ex_intro _ Fixture.Boom eq_refl))).
Defined.

Lemma reset_forgets_earlier_subscriptions_witness :
  Forall (well_behaved Fixture.code) [Fixture.callback2; Fixture.callback1]
  ∧ ∃ m1 m2,
      StaticEvent.run Fixture.code
        [Subscribe Fixture.callback2; Subscribe Fixture.callback1]
        (TestCaller.reset
           (Machine (StaticEvent.Build (Vector.Build [Fixture.faulty] 1))
              Fixture.start []))
      = (Normal, m1)
      ∧ TestCaller.trigger_event Fixture.code 8%Z m1 = (Normal, m2)
      ∧ calls m2 = [(Fixture.callback2, 8%Z); (Fixture.callback1, 8%Z)].
Proof.
  assert (Forall (well_behaved Fixture.code)
            [Fixture.callback2; Fixture.callback1]) as H.
  { apply List.Forall_cons; [apply callback2_well_behaved|].
    apply List.Forall_cons; [apply callback1_well_behaved|apply List.Forall_nil]. }
  split; [exact H|].
  destruct (reset_forgets_earlier_subscriptions Fixture.code
              [Fixture.callback2; Fixture.callback1]
              (Vector.Build [Fixture.faulty] 1) Fixture.start [] 8%Z H)
    as (m1 & m2 & H1 & _ & H2 & H3).
  exists m1, m2. split; [exact H1|]. split; [exact H2|exact H3].
Defined.

Lemma classes_differ_by_deadlock_only_witness :
  let ops := [Subscribe Fixture.callback1; Subscribe Fixture.faulty;
              Subscribe Fixture.callback2; Unsubscribe Fixture.callback2;
              Invoke 3%Z] in
  (ConcurrentStaticEvent.run Fixture.code ops Fixture.fresh_concurrent).1
    ≠ Deadlock
  ∧ calls (ConcurrentStaticEvent.run Fixture.code ops Fixture.fresh_concurrent).2
    = calls (StaticEvent.run Fixture.code ops Fixture.fresh).2.
Proof.
  intros ops.
  assert ((ConcurrentStaticEvent.run Fixture.code ops
             Fixture.fresh_concurrent).1 ≠ Deadlock) as H
    by (vm_compute; discriminate).
  split; [exact H|].
  exact (proj1 (proj2 (proj2 (classes_differ_by_deadlock_only Fixture.code ops
                                Vector.empty Fixture.start [] H)))).
Defined.

(** * The string utilities *)

Module StrFacts.
Import Str.

(** ** [str_obfuscate] *)

Lemma lxor_involutive (c k : Z) : Z.lxor (Z.lxor c k) k = c.
Proof. by rewrite Z.lxor_assoc, Z.lxor_nilpotent, Z.lxor_0_r. Qed.

Lemma lxor_byte (c k : Z) : is_byte c → is_byte k → is_byte (Z.lxor c k).
Proof.
  unfold is_byte. intros Hc Hk. split; [apply Z.lxor_nonneg; lia|].
  destruct (decide (Z.lxor c k = 0%Z)) as [->|Hne]; [lia|].
  assert (0 < Z.lxor c k)%Z as Hpos.
  { pose proof (proj2 (Z.lxor_nonneg c k)). lia. }
  change 256%Z with (2 ^ 8)%Z. apply Z.log2_lt_pow2; [done|].
  pose proof (Z.log2_lxor c k ltac:(lia) ltac:(lia)) as Hle.
  assert (∀ x, (0 ≤ x < 256)%Z → (Z.log2 x < 8)%Z) as Hlog.
  { intros x Hx. destruct (decide (x = 0%Z)) as [->|]; [done|].
    apply Z.log2_lt_pow2; lia. }
  pose proof (Hlog c Hc). pose proof (Hlog k Hk). lia.
Qed.

Lemma obfuscate_from_spec (i : nat) (rest key : list Z) :
  key ≠ [] →
  ∃ res, obfuscate_from i rest key = Some res
    ∧ length res = length rest
    ∧ obfuscate_from i res key = Some rest
    ∧ (Forall is_byte rest → Forall is_byte key → Forall is_byte res).
Proof.
  intros Hkey. assert (length key ≠ 0) as Hlen by (by destruct key).
  revert i. induction rest as [|c rest IH]; intros i; simpl.
  - exists []. by split_and!.
  - rewrite decide_False by done.
    destruct (key !! (i mod length key)) as [k|] eqn:Hk; last first.
    { apply lookup_ge_None in Hk.
      pose proof (Nat.mod_upper_bound i (length key) Hlen). lia. }
    destruct (IH (S i)) as (res & -> & Hl & Hback & Hb).
    exists (Z.lxor c k :: res). simpl.
    rewrite decide_False by done. rewrite Hk, Hback, lxor_involutive.
    split_and!; [done|by rewrite Hl|done|].
    intros [Hc Hrest]%Forall_cons Hkb. apply Forall_cons. split; [|by apply Hb].
    apply lxor_byte; [done|].
    eapply Forall_forall; [exact Hkb|]. by eapply list_elem_of_lookup_2.
Qed.

(** X10. With a non-empty key, [str_obfuscate] returns a string of the
    same length, bytes staying bytes, and [str_deobfuscate] with the same
    key gives the original string back. *)
Theorem obfuscate_round_trip (str key : list Z) :
  key ≠ [] →
  ∃ o, str_obfuscate str key = Some o
    ∧ length o = length str
    ∧ str_deobfuscate o key = Some str
    ∧ (Forall is_byte str → Forall is_byte key → Forall is_byte o).
Proof. intros Hkey. by apply obfuscate_from_spec. Qed.

(** ** The option flags *)

Lemma land_lor_absorb (a f : Z) : Z.land (Z.lor a f) f = f.
Proof.
  apply Z.bits_inj'. intros n Hn.
  rewrite Z.land_spec, Z.lor_spec. by destruct (Z.testbit a n), (Z.testbit f n).
Qed.

Lemma land_lnot_disjoint (a f : Z) : Z.land (Z.land a (Z.lnot f)) f = 0%Z.
Proof.
  apply Z.bits_inj'. intros n Hn.
  rewrite !Z.land_spec, Z.lnot_spec, Z.bits_0 by done.
  by destruct (Z.testbit a n), (Z.testbit f n).
Qed.

(** X11. A flag that has been set with [operator|] is found by
    [has_flag], a non-zero flag that has been cleared with [& ~flag] is
    not, and [has_flag(options, none)] holds for every [options]. *)
Theorem has_flag_set_clear (options flag : Z) :
  has_flag (op_or options flag) flag = true
  ∧ (flag ≠ 0%Z → has_flag (op_and options (op_not flag)) flag = false)
  ∧ has_flag options none = true.
Proof.
  unfold has_flag, op_or, op_and, op_not, none. split_and!.
  - rewrite land_lor_absorb. apply Z.eqb_refl.
  - intros Hf. rewrite land_lnot_disjoint. by apply Z.eqb_neq.
  - rewrite Z.land_0_r. done.
Qed.

(** ** Case conversion and comparison *)

Ltac ctype_cases :=
  repeat match goal with
         | |- context [(?a <=? ?b)%Z] => destruct (Z.leb_spec a b)
         | _ : context [(?a <=? ?b)%Z] |- _ => destruct (Z.leb_spec a b)
         end;
  cbn [andb orb] in *; first [done | lia | exfalso; lia].

Lemma tolower_idem (c : Z) : tolower (tolower c) = tolower c.
Proof. unfold tolower, isupper. ctype_cases. Qed.

Lemma toupper_idem (c : Z) : toupper (toupper c) = toupper c.
Proof. unfold toupper, islower. ctype_cases. Qed.

Lemma tolower_toupper (c : Z) : tolower (toupper c) = tolower c.
Proof. unfold tolower, toupper, isupper, islower. ctype_cases. Qed.

Lemma isupper_tolower (c : Z) : isupper (tolower c) = false.
Proof. unfold tolower, isupper. ctype_cases. Qed.

Lemma ignore_case_loop_spec (count i offset : nat) (a b : list Z) :
  offset + i + count ≤ length a →
  i + count ≤ length b →
  ignore_case_loop count i offset a b = true
  ↔ tolower <$> take count (drop (offset + i) a)
    = tolower <$> take count (drop i b).
Proof.
  revert i. induction count as [|count IH]; intros i Ha Hb; simpl.
  - done.
  - destruct (a !! (offset + i)) as [x|] eqn:Hx; last first.
    { apply lookup_ge_None in Hx. lia. }
    destruct (b !! i) as [y|] eqn:Hy; last first.
    { apply lookup_ge_None in Hy. lia. }
    rewrite (drop_S _ _ _ Hx), (drop_S _ _ _ Hy). simpl.
    destruct (tolower x =? tolower y)%Z eqn:Heq.
    + apply Z.eqb_eq in Heq. rewrite IH by lia.
      replace (offset + S i) with (S (offset + i)) by lia.
      rewrite Heq. split; [intros H; f_equal; exact H|intros [= H]; exact H].
    + apply Z.eqb_neq in Heq. split; [done|by intros [= ? _]].
Qed.

(** X12. [str_equals] under [ordinal] holds exactly for equal strings, and
    under [ordinal_ignore_case] exactly for strings with the same
    [str_to_lower]. *)
Theorem str_equals_spec (str1 str2 : list Z) :
  (str_equals str1 str2 ordinal = true ↔ str1 = str2)
  ∧ (str_equals str1 str2 ordinal_ignore_case = true
     ↔ str_to_lower str1 = str_to_lower str2).
Proof.
  unfold str_equals, str_to_lower. split.
  - case_decide as Hl.
    + split; [done|]. intros ->. done.
    + by rewrite bool_decide_eq_true.
  - case_decide as Hl.
    + split; [done|]. intros Heq. apply (f_equal length) in Heq.
      rewrite !length_fmap in Heq. done.
    + assert (length str1 = length str2) as Hl' by lia.
      rewrite ignore_case_loop_spec by lia. simpl.
      rewrite Hl' at 2. by rewrite !firstn_all.
Qed.

(** X13. [str_to_lower] keeps the length, leaves no upper-case letter,
    changes nothing when applied again, absorbs [str_to_upper], and its
    result equals the original string ignoring case. *)
Theorem str_to_lower_normalises (str : list Z) :
  length (str_to_lower str) = length str
  ∧ Forall (λ c, isupper c = false) (str_to_lower str)
  ∧ str_to_lower (str_to_lower str) = str_to_lower str
  ∧ str_to_lower (str_to_upper str) = str_to_lower str
  ∧ str_equals str (str_to_lower str) ordinal_ignore_case = true.
Proof.
  assert (str_to_lower (str_to_lower str) = str_to_lower str) as Hidem.
  { unfold str_to_lower. rewrite <- list_fmap_compose.
    apply list_fmap_ext. intros _ c _. apply tolower_idem. }
  unfold str_to_lower, str_to_upper in *. split_and!.
  - apply length_fmap.
  - apply Forall_fmap, Forall_forall. intros c _. apply isupper_tolower.
  - done.
  - rewrite <- list_fmap_compose. apply list_fmap_ext.
    intros _ c _. apply tolower_toupper.
  - apply (proj2 (str_equals_spec str (tolower <$> str))).
    unfold str_to_lower. by rewrite Hidem.
Qed.

(** ** [ci_equal] and [ci_hash] *)

Lemma ci_hash_lower (str : list Z) :
  ci_hash str
  = fold_left (λ hash c, ((Z.shiftl hash 5 + hash + c) mod 2 ^ 64)%Z)
      (str_to_lower str) 0%Z.
Proof.
  unfold ci_hash, str_to_lower. generalize 0%Z.
  induction str as [|c str IH]; intros h; simpl; [done|]. apply IH.
Qed.

(** X14. [ci_equal] is an equivalence relation on strings. *)
Theorem ci_equal_equivalence (a b c : list Z) :
  ci_equal a a = true
  ∧ (ci_equal a b = true → ci_equal b a = true)
  ∧ (ci_equal a b = true → ci_equal b c = true → ci_equal a c = true).
Proof.
  unfold ci_equal.
  pose proof (proj2 (str_equals_spec a a)) as Haa.
  pose proof (proj2 (str_equals_spec a b)) as Hab.
  pose proof (proj2 (str_equals_spec b a)) as Hba.
  pose proof (proj2 (str_equals_spec b c)) as Hbc.
  pose proof (proj2 (str_equals_spec a c)) as Hac.
  split_and!.
  - by apply Haa.
  - intros H. apply Hba. symmetry. by apply Hab.
  - intros H1 H2. apply Hac. etrans; [by apply Hab|by apply Hbc].
Qed.

(** X15. [ci_hash] is compatible with [ci_equal]: keys that [ci_equal]
    identifies have the same hash, as an unordered container requires of
    its hash and equality.  For strings of 7-bit characters, on which
    [std::tolower] of a plain [char] is defined. *)
Theorem ci_hash_respects_ci_equal (lhs rhs : list Z) :
  Forall is_ascii lhs →
  Forall is_ascii rhs →
  ci_equal lhs rhs = true →
  ci_hash lhs = ci_hash rhs.
Proof.
  intros _ _ Heq. apply (proj2 (str_equals_spec lhs rhs)) in Heq.
  by rewrite !ci_hash_lower, Heq.
Qed.

(** ** Prefixes and suffixes *)

Lemma take_is_prefix (a b : list Z) :
  take (length b) a = b ↔ b `prefix_of` a.
Proof.
  split.
  - intros <-. apply prefix_take.
  - intros [k ->]. by rewrite take_app_length.
Qed.

Lemma drop_is_suffix (a b : list Z) :
  length b ≤ length a →
  take (length b) (drop (length a - length b) a) = b ↔ b `suffix_of` a.
Proof.
  intros Hl. split.
  - intros Heq. exists (take (length a - length b) a).
    rewrite take_ge in Heq by (rewrite length_drop; lia).
    rewrite <- Heq at 2. by rewrite take_drop.
  - intros [k ->]. rewrite length_app.
    replace (length k + length b - length b) with (length k) by lia.
    rewrite drop_app_length. by rewrite firstn_all.
Qed.

(** X16. [str_starts_with] holds exactly when [prefix] is an initial part
    of [str], and [str_ends_with] exactly when [suffix] is a final part of
    it; under [ordinal_ignore_case], when this is so for the lower-cased
    strings.  A prefix or suffix longer than the string is never found. *)
Theorem starts_ends_with_spec (str part : list Z) :
  (str_starts_with str part ordinal = true ↔ part `prefix_of` str)
  ∧ (str_starts_with str part ordinal_ignore_case = true
     ↔ str_to_lower part `prefix_of` str_to_lower str)
  ∧ (str_ends_with str part ordinal = true ↔ part `suffix_of` str)
  ∧ (str_ends_with str part ordinal_ignore_case = true
     ↔ str_to_lower part `suffix_of` str_to_lower str).
Proof.
  unfold str_starts_with, str_ends_with, compare_eq, substr, str_to_lower.
  split_and!; case_decide as Hl.
  - split; [done|]. intros Hp%prefix_length. lia.
  - rewrite bool_decide_eq_true. simpl. apply take_is_prefix.
  - split; [done|]. intros Hp%prefix_length. rewrite !length_fmap in Hp. lia.
  - rewrite ignore_case_loop_spec by lia.
    rewrite !drop_0, firstn_all.
    rewrite <- (take_is_prefix (tolower <$> str) (tolower <$> part)).
    by rewrite length_fmap, fmap_take.
  - split; [done|]. intros Hp%suffix_length. lia.
  - rewrite bool_decide_eq_true. apply drop_is_suffix. lia.
  - split; [done|]. intros Hp%suffix_length. rewrite !length_fmap in Hp. lia.
  - rewrite ignore_case_loop_spec by lia.
    rewrite Nat.add_0_r, drop_0, firstn_all.
    rewrite <- (drop_is_suffix (tolower <$> str) (tolower <$> part))
      by (rewrite !length_fmap; lia).
    by rewrite !length_fmap, fmap_take, fmap_drop.
Qed.

(** ** Trimming *)

Section trim.
Variable whitespace : list Z.
Implicit Types (str t pre post : list Z).

Lemma find_first_not_of_app pre t :
  Forall (λ c, c ∈ whitespace) pre →
  find_first_not_of (pre ++ t) whitespace
  = (λ i, length pre + i) <$> find_first_not_of t whitespace.
Proof.
  induction 1 as [|c pre Hc Hpre IH]; simpl.
  - by destruct (find_first_not_of t whitespace).
  - rewrite decide_True by done. rewrite IH.
    by destruct (find_first_not_of t whitespace).
Qed.

Lemma find_first_not_of_all str :
  Forall (λ c, c ∈ whitespace) str → find_first_not_of str whitespace = None.
Proof.
  intros H. rewrite <- (app_nil_r str). by rewrite find_first_not_of_app.
Qed.

Lemma find_last_not_of_all str :
  Forall (λ c, c ∈ whitespace) str → find_last_not_of str whitespace = None.
Proof.
  induction 1 as [|c str Hc Hstr IH]; simpl; [done|].
  rewrite IH. by rewrite decide_True.
Qed.

Lemma find_last_not_of_app t post c :
  Forall (λ c, c ∈ whitespace) post →
  c ∉ whitespace →
  find_last_not_of (t ++ c :: post) whitespace = Some (length t).
Proof.
  intros Hpost Hc. induction t as [|x t IH]; simpl.
  - rewrite find_last_not_of_all by done. by rewrite decide_False.
  - by rewrite IH.
Qed.

Lemma find_first_not_of_split str :
  match find_first_not_of str whitespace with
  | None => Forall (λ c, c ∈ whitespace) str
  | Some b => Forall (λ c, c ∈ whitespace) (take b str)
              ∧ ∃ c, str !! b = Some c ∧ c ∉ whitespace
  end.
Proof.
  induction str as [|c str IH]; simpl; [done|].
  case_decide as Hc.
  - destruct (find_first_not_of str whitespace) as [b|]; simpl.
    + destruct IH as [Hpre Hhead]. split; [by apply Forall_cons|done].
    + by apply Forall_cons.
  - split; [done|]. by exists c.
Qed.

Lemma find_last_not_of_split str :
  match find_last_not_of str whitespace with
  | None => Forall (λ c, c ∈ whitespace) str
  | Some e => Forall (λ c, c ∈ whitespace) (drop (S e) str)
              ∧ ∃ c, str !! e = Some c ∧ c ∉ whitespace
  end.
Proof.
  induction str as [|c str IH]; simpl; [done|].
  destruct (find_last_not_of str whitespace) as [e|].
  - done.
  - case_decide as Hc.
    + by apply Forall_cons.
    + split; [by rewrite drop_0|]. by exists c.
Qed.

(** The three functions on a string given by its three parts. *)
Lemma trim_parts pre t post :
  Forall (λ c, c ∈ whitespace) pre →
  Forall (λ c, c ∈ whitespace) post →
  trimmed whitespace t →
  str_trim (pre ++ t ++ post) whitespace = t
  ∧ str_trim_left (pre ++ t ++ post) whitespace = t ++ (if t is [] then [] else post)
  ∧ str_trim_right (pre ++ t ++ post) whitespace = (if t is [] then [] else pre) ++ t.
Proof.
  intros Hpre Hpost [Hhead Hlast].
  destruct t as [|x t].
  { simpl. unfold str_trim, str_trim_left, str_trim_right.
    rewrite find_first_not_of_all, find_last_not_of_all
      by (by apply Forall_app). done. }
  assert (x ∉ whitespace) as Hx by (by apply Hhead).
  destruct (@exists_last _ (x :: t)) as (t' & y & Ht); [done|].
  assert (y ∉ whitespace) as Hy.
  { apply Hlast. rewrite Ht. apply last_snoc. }
  assert (find_first_not_of (pre ++ (x :: t) ++ post) whitespace
          = Some (length pre)) as Hb.
  { rewrite find_first_not_of_app by done. simpl.
    rewrite decide_False by done. simpl. f_equal. lia. }
  assert (find_last_not_of (pre ++ (x :: t) ++ post) whitespace
          = Some (length pre + length t)) as He.
  { rewrite Ht. rewrite <- (app_assoc t' [y] post). simpl.
    rewrite app_assoc. rewrite find_last_not_of_app by done.
    rewrite length_app. f_equal.
    apply (f_equal length) in Ht. rewrite length_app in Ht. simpl in Ht. lia. }
  unfold str_trim, str_trim_left, str_trim_right, substr.
  rewrite Hb, He. split_and!.
  - rewrite drop_app_length.
    replace (length pre + length t - length pre + 1) with (length (x :: t))
      by (simpl; lia).
    by rewrite take_app_length.
  - by rewrite drop_app_length.
  - rewrite drop_0, app_assoc.
    replace (length pre + length t + 1) with (length (pre ++ x :: t))
      by (rewrite length_app; simpl; lia).
    by rewrite take_app_length.
Qed.

(** Every string has these three parts. *)
Lemma trim_decompose str :
  ∃ pre t post, str = pre ++ t ++ post
    ∧ Forall (λ c, c ∈ whitespace) pre
    ∧ Forall (λ c, c ∈ whitespace) post
    ∧ trimmed whitespace t.
Proof.
  pose proof (find_first_not_of_split str) as Hf.
  pose proof (find_last_not_of_split str) as Hl.
  destruct (find_first_not_of str whitespace) as [b|].
  2:{ exists str, [], []. rewrite app_nil_r. by split_and!. }
  destruct Hf as [Hpre (x & Hx & Hxw)].
  destruct (find_last_not_of str whitespace) as [e|].
  2:{ exfalso. apply Hxw.
      exact (Forall_lookup_1 (λ c, c ∈ whitespace) str b x Hl Hx). }
  destruct Hl as [Hpost (y & Hy & Hyw)].
  assert (b ≤ e) as Hbe.
  { destruct (decide (b ≤ e)); [done|]. exfalso. apply Hxw.
    apply (Forall_lookup_1 (λ c, c ∈ whitespace) (drop (S e) str) (b - S e) x);
      [done|].
    rewrite lookup_drop. by replace (S e + (b - S e)) with b by lia. }
  assert (e < length str) as He by (by eapply lookup_lt_Some).
  exists (take b str), (take (S e - b) (drop b str)), (drop (S e) str).
  split_and!; [|done|done|].
  - rewrite app_assoc, take_take_drop.
    replace (b + (S e - b)) with (S e) by lia. by rewrite take_drop.
  - split; intros c.
    + rewrite head_lookup, lookup_take_lt, lookup_drop, Nat.add_0_r by lia.
      intros ?. by simplify_eq.
    + rewrite last_lookup, length_take, length_drop.
      rewrite Nat.min_l by lia.
      replace (Init.Nat.pred (S e - b)) with (e - b) by lia.
      rewrite lookup_take_lt, lookup_drop by lia.
      replace (b + (e - b)) with e by lia. intros ?. by simplify_eq.
Qed.

(** X17. [str_trim] removes from both ends exactly the characters of
    [whitespace]: what it drops in front and behind consists of such
    characters only, and what it returns neither begins nor ends with
    one.  A string of such characters only, or an empty one, gives the
    empty string. *)
Theorem str_trim_spec str :
  ∃ pre post,
    str = pre ++ str_trim str whitespace ++ post
    ∧ Forall (λ c, c ∈ whitespace) pre
    ∧ Forall (λ c, c ∈ whitespace) post
    ∧ trimmed whitespace (str_trim str whitespace)
    ∧ (Forall (λ c, c ∈ whitespace) str → str_trim str whitespace = []).
Proof.
  destruct (trim_decompose str) as (pre & t & post & -> & Hpre & Hpost & Ht).
  destruct (trim_parts pre t post Hpre Hpost Ht) as (-> & _ & _).
  exists pre, post. split_and!; try done.
  intros [_ [Hall _]%Forall_app]%Forall_app.
  destruct Ht as [Hhead _]. destruct t as [|x t]; [done|].
  exfalso. apply (Hhead x); [done|]. by apply Forall_cons in Hall as [? _].
Qed.

(** X18. Trimming both ends is trimming one end after the other, in
    either order, and trimming again changes nothing. *)
Theorem str_trim_composes str :
  str_trim str whitespace
    = str_trim_left (str_trim_right str whitespace) whitespace
  ∧ str_trim str whitespace
    = str_trim_right (str_trim_left str whitespace) whitespace
  ∧ str_trim (str_trim str whitespace) whitespace = str_trim str whitespace.
Proof.
  destruct (trim_decompose str) as (pre & t & post & -> & Hpre & Hpost & Ht).
  destruct (trim_parts pre t post Hpre Hpost Ht) as (-> & -> & ->).
  assert (Forall (λ c, c ∈ whitespace) []) as Hnil by done.
  split_and!.
  - destruct t as [|x t]; [done|].
    destruct (trim_parts pre (x :: t) [] Hpre Hnil Ht) as (_ & H & _).
    rewrite !app_nil_r in H. by rewrite H.
  - destruct t as [|x t]; [done|].
    destruct (trim_parts [] (x :: t) post Hnil Hpost Ht) as (_ & _ & H).
    simpl in H. simpl. by rewrite H.
  - destruct (trim_parts [] t [] Hnil Hnil Ht) as (H & _ & _).
    rewrite app_nil_l, app_nil_r in H. by rewrite H.
Qed.
End trim.

(** ** Splitting and joining *)

Lemma elem_of_take_1 (x : Z) n (l : list Z) : x ∈ take n l → x ∈ l.
Proof.
  intros (i & Hi & _)%elem_of_take. by eapply list_elem_of_lookup_2.
Qed.

Lemma elem_of_drop_1 (x : Z) n (l : list Z) : x ∈ drop n l → x ∈ l.
Proof.
  intros (i & Hi)%list_elem_of_lookup. rewrite lookup_drop in Hi.
  by eapply list_elem_of_lookup_2.
Qed.

Lemma join_fold_app (d a b : list Z) (ys : list (list Z)) :
  fold_left (λ oss s, oss ++ d ++ s) ys (a ++ b)
  = a ++ fold_left (λ oss s, oss ++ d ++ s) ys b.
Proof.
  revert b. induction ys as [|y ys IH]; intros b; simpl; [done|].
  by rewrite <- IH, <- app_assoc.
Qed.

Lemma join_cons_cons (x y : list Z) (ys : list (list Z)) (d : list Z) :
  str_join (x :: y :: ys) d = x ++ d ++ str_join (y :: ys) d.
Proof.
  simpl. rewrite join_fold_app. f_equal. apply join_fold_app.
Qed.

Lemma read_until_spec (d : Z) (ss : list Z) :
  (d ∉ (read_until d ss).1)
  ∧ (ss = (read_until d ss).1 ∧ (read_until d ss).2 = []
     ∨ ss = (read_until d ss).1 ++ d :: (read_until d ss).2).
Proof.
  induction ss as [|c ss IH]; simpl.
  - split; [apply not_elem_of_nil|by left].
  - case_decide as Hc; simpl.
    + subst c. split; [apply not_elem_of_nil|by right].
    + destruct (read_until d ss) as [t r]; simpl in *.
      destruct IH as [Hd Hss]. split.
      * apply not_elem_of_cons. by split; [congruence|].
      * destruct Hss as [[-> ->] | ->]; [by left|by right].
Qed.

Lemma read_until_app (d : Z) (p rest : list Z) :
  d ∉ p → read_until d (p ++ d :: rest) = (p, rest).
Proof.
  induction p as [|c p IH]; simpl; intros Hd.
  - by rewrite decide_True.
  - apply not_elem_of_cons in Hd as [Hc Hd].
    rewrite decide_False by congruence. by rewrite IH.
Qed.

Lemma read_until_whole (d : Z) (p : list Z) :
  d ∉ p → read_until d p = (p, []).
Proof.
  induction p as [|c p IH]; simpl; intros Hd; [done|].
  apply not_elem_of_cons in Hd as [Hc Hd].
  rewrite decide_False by congruence. by rewrite IH.
Qed.

Lemma split_loop_acc fuel (ss : list Z) d o (result : list (list Z)) :
  split_loop fuel ss d o result = result ++ split_loop fuel ss d o [].
Proof.
  revert ss result. induction fuel as [|fuel IH]; intros ss result; simpl.
  - by rewrite app_nil_r.
  - destruct (getline ss d) as [[token ss']|]; [|by rewrite app_nil_r].
    destruct (_ && _); [apply IH|].
    rewrite (IH ss' (result ++ _)), (IH ss' [_]). by rewrite <- app_assoc.
Qed.

Lemma split_loop_nil fuel d o (result : list (list Z)) :
  split_loop fuel [] d o result = result.
Proof. by destruct fuel. Qed.

Lemma split_loop_none_cons fuel (c : Z) (ss : list Z) d :
  split_loop (S fuel) (c :: ss) d none []
  = (read_until d (c :: ss)).1
    :: split_loop fuel (read_until d (c :: ss)).2 d none [].
Proof.
  cbn [split_loop getline]. destruct (read_until d (c :: ss)) as [t r].
  rewrite andb_false_r. by rewrite split_loop_acc.
Qed.

Lemma last_no_delimiter (d : Z) (p : list Z) : d ∉ p → last p ≠ Some d.
Proof. intros Hd Hl. apply Hd. by apply last_Some_elem_of. Qed.

Lemma fields_join (n fuel : nat) (ss : list Z) (d : Z) :
  length ss ≤ n → length ss ≤ fuel → ss ≠ [] →
  fields fuel ss d ≠ [] ∧ str_join (fields fuel ss d) [d] = ss.
Proof.
  revert fuel ss. induction n as [|n IH]; intros fuel ss Hn Hfuel Hss.
  { destruct ss; [done|simpl in Hn; lia]. }
  destruct ss as [|c ss]; [done|]. destruct fuel as [|fuel]; [simpl in *; lia|].
  unfold fields. rewrite split_loop_none_cons.
  destruct (read_until_spec d (c :: ss)) as [Hd Hcases].
  destruct (read_until d (c :: ss)) as [t r]; simpl in Hd, Hcases; cbn [fst snd].
  split; [done|].
  destruct Hcases as [[Ht ->]|Ht].
  - rewrite split_loop_nil, Ht.
    rewrite bool_decide_eq_false_2 by (by apply last_no_delimiter).
    simpl. done.
  - rewrite Ht. destruct r as [|c' r].
    + rewrite split_loop_nil, last_snoc, bool_decide_eq_true_2 by done.
      cbn [app]. rewrite join_cons_cons. done.
    + assert (length (c' :: r) ≤ n ∧ length (c' :: r) ≤ fuel) as [Hr Hr'].
      { apply (f_equal length) in Ht. rewrite length_app in Ht.
        simpl in *. lia. }
      destruct (IH fuel (c' :: r) Hr Hr' ltac:(done)) as [Hne Hjoin].
      unfold fields in Hne, Hjoin.
      rewrite last_app_cons, last_cons_cons.
      destruct (split_loop fuel (c' :: r) d none [] ++ _) as [|y ys] eqn:Hy;
        [done|].
      cbn [app]. rewrite Hy. rewrite join_cons_cons, Hjoin. done.
Qed.

(** X19. Splitting with [none] loses nothing: joining the entries of
    [str_split(str, delimiter, none)] with the delimiter gives [str]
    back, for every string, delimiters at its ends and side by side
    included. *)
Theorem join_split_round_trip (str : list Z) (delimiter : Z) :
  str_join (str_split str delimiter none) [delimiter] = str.
Proof.
  unfold str_split. case_decide as Hs; [by subst|].
  rewrite bool_decide_eq_true_2 by done.
  change (has_flag none remove_empty_entries) with false.
  cbn [negb andb]. rewrite andb_true_r.
  pose proof (fields_join (length str) (length str) str delimiter
                (Nat.le_refl _) (Nat.le_refl _) Hs) as [_ H].
  unfold fields in H.
  destruct (bool_decide (last str = Some delimiter)); [done|].
  by rewrite app_nil_r in H.
Qed.

Lemma trim_token_elem (c : Z) (token : list Z) (options : Z) :
  c ∈ trim_token token options → c ∈ token.
Proof.
  unfold trim_token, str_trim, str_trim_left, str_trim_right, substr.
  repeat match goal with
         | |- context [if ?b then _ else _] => destruct b
         | |- context [match ?o with Some _ => _ | None => _ end] => destruct o
         end;
    try done; try by intros ?%elem_of_nil.
  - intros ?%elem_of_take_1. by eapply elem_of_drop_1.
  - apply elem_of_drop_1.
  - intros ?%elem_of_take_1. by eapply elem_of_drop_1.
Qed.

Lemma split_loop_no_delimiter fuel (ss : list Z) d o (result : list (list Z)) :
  Forall (λ e, d ∉ e) result →
  Forall (λ e, d ∉ e) (split_loop fuel ss d o result).
Proof.
  revert ss result. induction fuel as [|fuel IH]; intros ss result Hres; simpl.
  - done.
  - destruct ss as [|c ss]; [done|]. cbn [getline].
    pose proof (read_until_spec d (c :: ss)) as [Hd _].
    destruct (read_until d (c :: ss)) as [token ss']. simpl in Hd.
    destruct (_ && _); apply IH; [done|].
    apply Forall_app. split; [done|]. apply Forall_singleton.
    intros Hin%trim_token_elem. done.
Qed.

(** X20. Whatever the options, no entry returned by [str_split] contains
    the delimiter. *)
Theorem split_entries_have_no_delimiter (str : list Z) (delimiter options : Z) :
  Forall (λ entry, delimiter ∉ entry) (str_split str delimiter options).
Proof.
  unfold str_split. case_decide as Hs; [done|].
  assert (Forall (λ e, delimiter ∉ e)
            (split_loop (length str) str delimiter options [])) as H
    by (by apply split_loop_no_delimiter).
  destruct (_ && _); [|done].
  apply Forall_app. split; [done|]. apply Forall_singleton, not_elem_of_nil.
Qed.

Lemma split_loop_remove_empty fuel (ss : list Z) d (result : list (list Z)) :
  split_loop fuel ss d remove_empty_entries result
  = result ++ filter (λ e, e ≠ []) (split_loop fuel ss d none []).
Proof.
  revert ss result. induction fuel as [|fuel IH]; intros ss result; simpl.
  - by rewrite app_nil_r.
  - destruct ss as [|c ss]; [by rewrite app_nil_r|]. cbn [getline].
    destruct (read_until d (c :: ss)) as [token ss'].
    change (has_flag remove_empty_entries remove_empty_entries) with true.
    change (has_flag none remove_empty_entries) with false.
    rewrite andb_true_r, andb_false_r.
    rewrite (split_loop_acc fuel ss' d none).
    change (trim_token token none) with token.
    change (trim_token token remove_empty_entries) with token.
    rewrite filter_app. case_bool_decide as Ht.
    + subst token. rewrite IH. by rewrite filter_cons_False by naive_solver.
    + rewrite IH. rewrite filter_cons_True by done.
      rewrite filter_nil. by rewrite <- app_assoc.
Qed.

(** X21. Under [remove_empty_entries] alone [str_split] returns the
    non-empty entries of the split under [none], in the same order;
    none of its entries is empty. *)
Theorem split_remove_empty_entries (str : list Z) (delimiter : Z) :
  str_split str delimiter remove_empty_entries
  = filter (λ entry, entry ≠ []) (str_split str delimiter none)
  ∧ Forall (λ entry, entry ≠ []) (str_split str delimiter remove_empty_entries).
Proof.
  assert (str_split str delimiter remove_empty_entries
          = filter (λ entry, entry ≠ []) (str_split str delimiter none)) as H.
  { unfold str_split. case_decide as Hs; [done|].
    rewrite bool_decide_eq_true_2 by done.
    change (has_flag remove_empty_entries remove_empty_entries) with true.
    change (has_flag none remove_empty_entries) with false.
    cbn [negb andb]. rewrite andb_false_r, andb_true_r.
    rewrite split_loop_remove_empty. cbn [app].
    destruct (bool_decide (last str = Some delimiter)); [|done].
    rewrite filter_app. rewrite (filter_cons_False _ []) by naive_solver.
    by rewrite filter_nil, app_nil_r. }
  split; [done|]. rewrite H. apply Forall_forall.
  by intros e [? _]%list_elem_of_filter.
Qed.

Lemma join_nil_iff (parts : list (list Z)) (d : Z) :
  str_join parts [d] = [] ↔ parts = [] ∨ parts = [[]].
Proof.
  split; [|by intros [-> | ->]].
  destruct parts as [|p [|q qs]]; [by left| |].
  - simpl. intros ->. by right.
  - rewrite join_cons_cons. intros H. by destruct p.
Qed.

Lemma fields_of_join (parts : list (list Z)) (d : Z) (fuel : nat) :
  Forall (λ p, d ∉ p) parts →
  parts ≠ [] → parts ≠ [[]] →
  length (str_join parts [d]) ≤ fuel →
  fields fuel (str_join parts [d]) d = parts.
Proof.
  revert fuel. induction parts as [|p parts IH]; intros fuel Hd Hne Hne1 Hfuel;
    [done|].
  apply Forall_cons in Hd as [Hp Hd].
  destruct parts as [|q qs].
  - destruct p as [|c p]; [done|]. simpl in *.
    destruct fuel as [|fuel]; [lia|].
    unfold fields. rewrite split_loop_none_cons.
    rewrite read_until_whole by done. cbn [fst snd].
    rewrite split_loop_nil.
    by rewrite bool_decide_eq_false_2 by (by apply last_no_delimiter).
  - rewrite join_cons_cons in *. rewrite length_app in Hfuel.
    cbn [app length] in Hfuel.
    assert (∃ c s, p ++ [d] ++ str_join (q :: qs) [d] = c :: s) as (c & s & Hcs).
    { destruct p; simpl; eauto. }
    destruct fuel as [|fuel]; [lia|].
    unfold fields. rewrite Hcs, split_loop_none_cons, <- Hcs.
    cbn [app]. rewrite read_until_app by done. cbn [fst snd].
    rewrite last_app_cons.
    destruct (decide (q :: qs = [[]])) as [Hq|Hq].
    + injection Hq as -> ->. simpl.
      rewrite split_loop_nil. by rewrite bool_decide_eq_true_2.
    + assert (str_join (q :: qs) [d] ≠ []) as Hj.
      { intros [?|?]%join_nil_iff; done. }
      specialize (IH fuel Hd ltac:(done) Hq ltac:(lia)). unfold fields in IH.
      destruct (str_join (q :: qs) [d]) as [|c' s'] eqn:Hjs; [done|].
      rewrite last_cons_cons. cbn [app]. by rewrite IH.
Qed.

(** X22. Splitting a joined list gives the list back: when no part
    contains the delimiter, [str_split(str_join(parts, delimiter),
    delimiter, none)] is [parts], except for the list of one empty string,
    which is joined to the empty string and split to the empty list. *)
Theorem split_join_round_trip (parts : list (list Z)) (delimiter : Z) :
  Forall (λ p, delimiter ∉ p) parts →
  parts ≠ [[]] →
  str_split (str_join parts [delimiter]) delimiter none = parts.
Proof.
  intros Hd Hne. unfold str_split. case_decide as Hj.
  - apply join_nil_iff in Hj as [-> | ->]; done.
  - rewrite bool_decide_eq_true_2 by done.
    change (has_flag none remove_empty_entries) with false.
    cbn [negb andb]. rewrite andb_true_r.
    assert (parts ≠ []) as Hne0 by (by intros ->).
    pose proof (fields_of_join parts delimiter _ Hd Hne0 Hne (Nat.le_refl _)) as H.
    unfold fields in H.
    destruct (bool_decide (last (str_join parts [delimiter]) = Some delimiter));
      [done|]. by rewrite app_nil_r in H.
Qed.

(** ** [str_to_slug] *)

Lemma join_snoc (words : list (list Z)) (w d : list Z) :
  words ≠ [] → str_join (words ++ [w]) d = str_join words d ++ d ++ w.
Proof.
  induction words as [|x [|y ys] IH]; intros Hne; [done|done|].
  change ((x :: y :: ys) ++ [w]) with (x :: y :: (ys ++ [w])).
  rewrite !join_cons_cons.
  change (y :: ys ++ [w]) with ((y :: ys) ++ [w]).
  rewrite IH by done. by rewrite <- !app_assoc.
Qed.

Lemma join_snoc_extend (words : list (list Z)) (w d c : list Z) :
  str_join (words ++ [w ++ c]) d = str_join (words ++ [w]) d ++ c.
Proof.
  destruct words as [|x xs]; [done|].
  rewrite !join_snoc by done. by rewrite <- !app_assoc.
Qed.

Lemma tolower_alnum (c : Z) :
  isalnum c = true → isdigit (tolower c) || islower (tolower c) = true.
Proof. unfold isalnum, tolower, isdigit, isupper, islower. ctype_cases. Qed.

Lemma slug_char_not_separator (c separator : Z) :
  isalnum separator = false →
  isdigit c || islower c = true → c ≠ separator.
Proof.
  intros Hs Hc ->. unfold isalnum in Hs.
  destruct (isdigit separator), (islower separator), (isupper separator); done.
Qed.

(** What the loop of [str_to_slug] has built: words joined by single
    separators, with one more separator behind them when [last_was_sep]
    is set after a word. *)
Lemma slug_loop_words (str : list Z) (separator : Z) (words : list (list Z))
    (last_was_sep : bool) :
  Forall slug_word words →
  (last_was_sep = false → words ≠ []) →
  ∃ words' (b : bool),
    Forall slug_word words'
    ∧ (b = false → words' ≠ [])
    ∧ slug_loop str
        (str_join words [separator]
         ++ (if last_was_sep then (if words is [] then [] else [separator]) else []))
        last_was_sep separator
      = str_join words' [separator]
        ++ (if b then (if words' is [] then [] else [separator]) else []).
Proof.
  revert words last_was_sep.
  induction str as [|c str IH]; intros words lws Hw Hne; simpl.
  { by exists words, lws. }
  destruct (isalnum c) eqn:Hc.
  - pose proof (tolower_alnum c Hc) as Hlow.
    destruct lws.
    + destruct (IH (words ++ [[tolower c]]) false) as (words' & b & H1 & H2 & H3).
      { apply Forall_app. split; [done|]. apply Forall_singleton.
        split; [done|]. by apply Forall_singleton. }
      { intros _. by destruct words. }
      exists words', b. split_and!; [done|done|]. rewrite <- H3. f_equal.
      rewrite app_nil_r. destruct words as [|x xs]; [done|].
      rewrite join_snoc by done. by rewrite <- !app_assoc.
    + destruct (exists_last (l:=words)) as (ws & w & ->); [by apply Hne|].
      apply Forall_app in Hw as [Hws [Hw _]%Forall_cons].
      destruct (IH (ws ++ [w ++ [tolower c]]) false) as (words' & b & H1 & H2 & H3).
      { apply Forall_app. split; [done|]. apply Forall_singleton.
        destruct Hw as [Hw1 Hw2]. split; [by destruct w|].
        apply Forall_app. split; [done|]. by apply Forall_singleton. }
      { intros _. by destruct ws. }
      exists words', b. split_and!; [done|done|]. rewrite <- H3. f_equal.
      rewrite !app_nil_r. symmetry. apply join_snoc_extend.
  - destruct lws; simpl.
    + apply (IH words true); done.
    + destruct (IH words true Hw ltac:(done)) as (words' & b & H1 & H2 & H3).
      exists words', b. split_and!; [done|done|]. rewrite <- H3. f_equal.
      rewrite app_nil_r. destruct words; [by specialize (Hne eq_refl)|done].
Qed.

Lemma last_join_word (words : list (list Z)) (separator : Z) :
  isalnum separator = false →
  Forall slug_word words →
  last (str_join words [separator]) ≠ Some separator.
Proof.
  intros Hs Hw.
  destruct (decide (words = [])) as [->|Hne]; [done|].
  destruct (exists_last (l:=words)) as (ws & w & ->); [done|].
  apply Forall_app in Hw as [_ [[Hw1 Hw2] _]%Forall_cons].
  destruct (exists_last (l:=w)) as (w' & c & ->); [done|].
  apply Forall_app in Hw2 as [_ [Hc _]%Forall_cons].
  assert (last (str_join (ws ++ [w' ++ [c]]) [separator]) = Some c) as ->.
  { rewrite join_snoc_extend. apply last_snoc. }
  intros [= ->]. by eapply slug_char_not_separator.
Qed.

(** X23. With a separator that is not itself alphanumeric, the result of
    [str_to_slug] is a sequence of non-empty words of digits and
    lower-case letters joined by single separators: it neither begins nor
    ends with the separator and never has two of them side by side. *)
Theorem str_to_slug_shape (str : list Z) (separator : Z) :
  isalnum separator = false →
  ∃ words, Forall slug_word words
    ∧ str_to_slug str separator = str_join words [separator].
Proof.
  intros Hs. unfold str_to_slug.
  destruct (slug_loop_words str separator [] true) as (words & b & Hw & Hb & Hr);
    [done|done|].
  simpl in Hr. rewrite Hr. exists words. split; [done|].
  destruct b; last first.
  { rewrite app_nil_r.
    pose proof (last_join_word words separator Hs Hw) as Hl.
    destruct (last (str_join words [separator])) as [x|] eqn:Hx; [|done].
    destruct (Z.eqb_spec x separator); [by subst|done]. }
  destruct words as [|w ws].
  { done. }
  rewrite last_snoc, Z.eqb_refl. by rewrite removelast_last.
Qed.

(** ** [str_replace] *)

Lemma find_occurrence (str from : list Z) (pos : nat) :
  find str from = Some pos →
  str = take pos str ++ from ++ drop (pos + length from) str.
Proof.
  revert pos. induction str as [|c str IH]; intros pos; simpl.
  - case_decide as Hp; [|done]. intros [= <-].
    apply prefix_nil_inv in Hp. by subst.
  - case_decide as Hp.
    + intros [= <-]. destruct Hp as [k ->]. simpl.
      by rewrite drop_app_length.
    + destruct (find str from) as [i|] eqn:Hi; [|done]. intros [= <-].
      simpl. f_equal. by apply IH.
Qed.

Lemma replace_loop_same fuel (rest from result : list Z) :
  replace_loop fuel rest from from result = result ++ rest.
Proof.
  revert rest result. induction fuel as [|fuel IH]; intros rest result; simpl;
    [done|].
  destruct (find rest from) as [pos|] eqn:Hf; [|done].
  rewrite IH. rewrite <- !app_assoc.
  by rewrite <- (find_occurrence rest from pos Hf).
Qed.

(** X24. [str_replace] returns the string unchanged when [from] is
    empty, when [from] does not occur in it, and when [from] is replaced
    by itself. *)
Theorem str_replace_unchanged (str from to : list Z) :
  str_replace str [] to = str
  ∧ ((∀ a b, str ≠ a ++ from ++ b) → str_replace str from to = str)
  ∧ str_replace str from from = str.
Proof.
  split_and!.
  - done.
  - intros Hno. unfold str_replace. case_decide; [done|].
    assert (find str from = None) as Hf.
    { destruct (find str from) as [pos|] eqn:Hf; [|done].
      exfalso. eapply Hno. by apply find_occurrence. }
    destruct str; simpl; [done|]. simpl in Hf. by rewrite Hf.
  - unfold str_replace. case_decide; [done|]. apply replace_loop_same.
Qed.

(** ** [str_split] with the trimming options *)

Lemma split_loop_Forall (P : list Z → Prop) fuel (ss : list Z) d o
    (result : list (list Z)) :
  (∀ token, P (trim_token token o)) →
  Forall P result →
  Forall P (split_loop fuel ss d o result).
Proof.
  intros HP. revert ss result.
  induction fuel as [|fuel IH]; intros ss result Hres; simpl; [done|].
  destruct (getline ss d) as [[token ss']|]; [|done].
  destruct (_ && _); apply IH; [done|].
  apply Forall_app. split; [done|]. apply Forall_singleton, HP.
Qed.

Lemma str_split_Forall (P : list Z → Prop) (str : list Z) d o :
  P [] → (∀ token, P (trim_token token o)) → Forall P (str_split str d o).
Proof.
  intros Hnil HP. unfold str_split. case_decide; [done|].
  pose proof (split_loop_Forall P (length str) str d o [] HP (Forall_nil_2 _)).
  destruct (_ && _); [|done].
  apply Forall_app. split; [done|]. by apply Forall_singleton.
Qed.

Lemma trim_token_left (token : list Z) (o c : Z) :
  has_flag o trim_left = true →
  head (trim_token token o) = Some c → c ∉ default_whitespace.
Proof.
  intros Hl. unfold trim_token. rewrite Hl.
  destruct (trim_decompose default_whitespace token)
    as (pre & t & post & -> & Hpre & Hpost & Ht).
  destruct (trim_parts default_whitespace pre t post Hpre Hpost Ht)
    as (H1 & H2 & _).
  destruct (has_flag o trim_right).
  - rewrite H1. apply Ht.
  - rewrite H2. destruct t as [|x t]; [done|]. apply (proj1 Ht).
Qed.

Lemma trim_token_right (token : list Z) (o c : Z) :
  has_flag o trim_right = true →
  last (trim_token token o) = Some c → c ∉ default_whitespace.
Proof.
  intros Hr. unfold trim_token. rewrite Hr.
  destruct (trim_decompose default_whitespace token)
    as (pre & t & post & -> & Hpre & Hpost & Ht).
  destruct (trim_parts default_whitespace pre t post Hpre Hpost Ht)
    as (H1 & _ & H3).
  destruct (has_flag o trim_left).
  - rewrite H1. apply Ht.
  - rewrite H3. destruct t as [|x t]; [done|].
    rewrite last_app_cons. apply (proj2 Ht).
Qed.

Lemma trim_token_blank (token : list Z) (o : Z) :
  Forall (λ c, c ∈ default_whitespace) token →
  has_flag o trim_left = true ∨ has_flag o trim_right = true →
  trim_token token o = [].
Proof.
  intros Hws Hflag. unfold trim_token, str_trim, str_trim_left, str_trim_right.
  rewrite (find_first_not_of_all default_whitespace token Hws).
  rewrite (find_last_not_of_all default_whitespace token Hws).
  destruct (has_flag o trim_left), (has_flag o trim_right); try done.
  by destruct Hflag.
Qed.

(** X26. With [trim_left] among the options no entry returned by
    [str_split] begins with a white-space character, and with
    [trim_right] none ends with one. *)
Theorem split_trims_entries (str : list Z) (delimiter options : Z) :
  (has_flag options trim_left = true →
   Forall (λ entry, ∀ c, head entry = Some c → c ∉ default_whitespace)
     (str_split str delimiter options))
  ∧ (has_flag options trim_right = true →
     Forall (λ entry, ∀ c, last entry = Some c → c ∉ default_whitespace)
       (str_split str delimiter options)).
Proof.
  split; intros Hflag; apply str_split_Forall; try done.
  - intros token c. by apply trim_token_left.
  - intros token c. by apply trim_token_right.
Qed.

(** X27. [str_split] tests a token for emptiness before it trims it: a
    non-empty string of white space only, without the delimiter, is split
    into one empty entry as soon as a trimming option is set, with
    [remove_empty_entries] as without. *)
Theorem split_blank_gives_empty_entry (str : list Z) (delimiter options : Z) :
  str ≠ [] →
  Forall (λ c, c ∈ default_whitespace) str →
  delimiter ∉ str →
  has_flag options trim_left = true ∨ has_flag options trim_right = true →
  str_split str delimiter options = [[]].
Proof.
  intros Hne Hws Hd Hflag. unfold str_split. rewrite decide_False by done.
  assert (bool_decide (last str = Some delimiter) = false) as ->.
  { apply bool_decide_eq_false. by intros ?%last_Some_elem_of. }
  rewrite andb_false_r. cbn [andb].
  destruct str as [|c str]; [done|]. cbn [length split_loop getline].
  rewrite (read_until_whole delimiter (c :: str) Hd).
  rewrite bool_decide_eq_false_2 by done. cbn [andb app].
  by rewrite split_loop_nil, trim_token_blank.
Qed.

(** Every turn of the loop of [str_replace] shortens what is left of the
    string, so that its length is fuel enough. *)
Lemma replace_loop_fuel fuel fuel' (rest from to result : list Z) :
  from ≠ [] → length rest ≤ fuel → length rest ≤ fuel' →
  replace_loop fuel rest from to result = replace_loop fuel' rest from to result.
Proof.
  intros Hfrom. revert fuel' rest result.
  induction fuel as [|fuel IH]; intros fuel' rest result H1 H2.
  - destruct rest; [|simpl in H1; lia]. destruct fuel'; simpl; [done|].
    case_decide as Hp; [|done]. apply prefix_nil_inv in Hp. done.
  - destruct fuel' as [|fuel'].
    + destruct rest; [|simpl in H2; lia]. simpl.
      case_decide as Hp; [|done]. apply prefix_nil_inv in Hp. done.
    + simpl. destruct (find rest from) as [pos|] eqn:Hf; [|done].
      pose proof (find_occurrence rest from pos Hf) as Ho.
      apply (f_equal length) in Ho. rewrite !length_app, length_take in Ho.
      assert (0 < length from) by (destruct from; [done|simpl; lia]).
      apply IH; rewrite length_drop; lia.
Qed.

(** ** Instances *)

Lemma obfuscate_round_trip_witness :
  [7%Z] ≠ []
  ∧ ∃ o, str_obfuscate [72; 105]%Z [7%Z] = Some o
      ∧ str_deobfuscate o [7%Z] = Some [72; 105]%Z.
Proof.
  assert ([7%Z] ≠ []) as H by discriminate.
  split; [exact H|].
  destruct (obfuscate_round_trip [72; 105]%Z [7%Z] H) as (o & H1 & _ & H2 & _).
  exists o. split; [exact H1|exact H2].
Defined.

Lemma has_flag_set_clear_witness :
  trim_left ≠ 0%Z
  ∧ has_flag (op_and trim (op_not trim_left)) trim_left = false.
Proof.
  assert (trim_left ≠ 0%Z) as H by discriminate.
  split; [exact H|].
  exact (proj1 (proj2 (has_flag_set_clear trim trim_left)) H).
Defined.

Lemma ci_equal_equivalence_witness :
  ci_equal [65; 98]%Z [97; 66]%Z = true
  ∧ ci_equal [97; 66]%Z [97; 98]%Z = true
  ∧ ci_equal [65; 98]%Z [97; 98]%Z = true.
Proof.
  split; [reflexivity|]. split; [reflexivity|].
  exact (proj2 (proj2 (ci_equal_equivalence [65; 98]%Z [97; 66]%Z [97; 98]%Z))
           eq_refl eq_refl).
Defined.

Lemma ci_hash_respects_ci_equal_witness :
  Forall is_ascii [65; 98]%Z
  ∧ Forall is_ascii [97; 66]%Z
  ∧ ci_equal [65; 98]%Z [97; 66]%Z = true
  ∧ ci_hash [65; 98]%Z = ci_hash [97; 66]%Z.
Proof.
  assert (Forall is_ascii [65; 98]%Z) as H1
    by (repeat apply List.Forall_cons; try apply List.Forall_nil;
        unfold is_ascii; lia).
  assert (Forall is_ascii [97; 66]%Z) as H2
    by (repeat apply List.Forall_cons; try apply List.Forall_nil;
        unfold is_ascii; lia).
  split; [exact H1|]. split; [exact H2|]. split; [reflexivity|].
  exact (ci_hash_respects_ci_equal [65; 98]%Z [97; 66]%Z H1 H2 eq_refl).
Defined.

Lemma str_trim_spec_witness :
  Forall (λ c, c ∈ default_whitespace) [32; 9; 10]%Z
  ∧ str_trim [32; 9; 10]%Z default_whitespace = [].
Proof.
  assert (Forall (λ c, c ∈ default_whitespace) [32; 9; 10]%Z) as H.
  { unfold default_whitespace.
    repeat apply List.Forall_cons; try apply List.Forall_nil; cbv beta;
      rewrite !elem_of_cons; auto. }
  split; [exact H|].
  destruct (str_trim_spec default_whitespace [32; 9; 10]%Z)
    as (pre & post & _ & _ & _ & _ & H5).
  exact (H5 H).
Defined.

Lemma split_join_round_trip_witness :
  Forall (λ p, 44%Z ∉ p) [[97]; []; [98; 99]]%Z
  ∧ [[97]; []; [98; 99]]%Z ≠ [[]]
  ∧ str_split (str_join [[97]; []; [98; 99]]%Z [44%Z]) 44%Z none
    = [[97]; []; [98; 99]]%Z.
Proof.
  assert (Forall (λ p, 44%Z ∉ p) [[97]; []; [98; 99]]%Z) as H1.
  { repeat apply List.Forall_cons; try apply List.Forall_nil;
      repeat (apply not_elem_of_cons; split; [discriminate|]);
      apply not_elem_of_nil. }
  assert ([[97]; []; [98; 99]]%Z ≠ [[]]) as H2 by discriminate.
  split; [exact H1|]. split; [exact H2|].
  exact (split_join_round_trip [[97]; []; [98; 99]]%Z 44%Z H1 H2).
Defined.

Lemma str_to_slug_shape_witness :
  isalnum 45%Z = false
  ∧ ∃ words, Forall slug_word words
      ∧ str_to_slug [72; 105; 44; 32; 89; 111; 33]%Z 45%Z
        = str_join words [45%Z].
Proof.
  split; [reflexivity|].
  exact (str_to_slug_shape [72; 105; 44; 32; 89; 111; 33]%Z 45%Z eq_refl).
Defined.

Lemma str_replace_unchanged_witness :
  (∀ a b, [97; 98; 99]%Z ≠ a ++ [120%Z] ++ b)
  ∧ str_replace [97; 98; 99]%Z [120%Z] [121; 122]%Z = [97; 98; 99]%Z.
Proof.
  assert (∀ a b, [97; 98; 99]%Z ≠ a ++ [120%Z] ++ b) as H.
  { intros a b Heq.
    assert (120%Z ∈ [97; 98; 99]%Z) as Hin.
    { rewrite Heq. apply elem_of_app. right. apply elem_of_cons. by left. }
    repeat (apply elem_of_cons in Hin as [Hin|Hin]; [discriminate|]).
    by apply elem_of_nil in Hin. }
  split; [exact H|].
  exact (proj1 (proj2 (str_replace_unchanged [97; 98; 99]%Z [120%Z] [121; 122]%Z))
           H).
Defined.

Lemma split_trims_entries_witness :
  has_flag trim trim_left = true
  ∧ Forall (λ entry, ∀ c, head entry = Some c → c ∉ default_whitespace)
      (str_split [32; 97; 44; 32; 44; 98; 32]%Z 44%Z trim).
Proof.
  split; [reflexivity|].
  exact (proj1 (split_trims_entries [32; 97; 44; 32; 44; 98; 32]%Z 44%Z trim)
           eq_refl).
Defined.

Lemma split_blank_gives_empty_entry_witness :
  [32; 9]%Z ≠ []
  ∧ Forall (λ c, c ∈ default_whitespace) [32; 9]%Z
  ∧ (44%Z ∉ [32; 9]%Z)
  ∧ (has_flag (op_or remove_empty_entries trim) trim_left = true
     ∨ has_flag (op_or remove_empty_entries trim) trim_right = true)
  ∧ str_split [32; 9]%Z 44%Z (op_or remove_empty_entries trim) = [[]].
Proof.
  assert ([32; 9]%Z ≠ []) as H1 by discriminate.
  assert (Forall (λ c, c ∈ default_whitespace) [32; 9]%Z) as H2.
  { unfold default_whitespace.
    repeat apply List.Forall_cons; try apply List.Forall_nil; cbv beta;
      rewrite !elem_of_cons; auto. }
  assert (44%Z ∉ [32; 9]%Z) as H3.
  { repeat (apply not_elem_of_cons; split; [discriminate|]).
    apply not_elem_of_nil. }
  assert (has_flag (op_or remove_empty_entries trim) trim_left = true
          ∨ has_flag (op_or remove_empty_entries trim) trim_right = true) as H4
    by (left; reflexivity).
  split; [exact H1|]. split; [exact H2|]. split; [exact H3|]. split; [exact H4|].
  exact (split_blank_gives_empty_entry [32; 9]%Z 44%Z
           (op_or remove_empty_entries trim) H1 H2 H3 H4).
Defined.
End StrFacts.
